(** * octogle-meet: the signaling relay and the client's connection hooks

    The relay ([Module Relay]) embeds the socket.io server of the
    repository: the in-memory [rooms] table and the five event handlers
    registered for every connected socket.  The client ([Module Client])
    embeds the React hooks [useMediaStream], [usePeerConnection],
    [useSocketConnection] and [useRoomConnection] as functions over an
    explicit record of their refs and state cells. *)

From Equations Require Import Equations.
From Stdlib Require Import ZArith Lia.
From stdpp Require Import gmap strings list fin_maps fin_sets pretty.

Set Warnings "-clear-no-such-hyp".

(** ** The signaling server *)

Module Relay.

#[local] Open Scope string_scope.

(** The [reason] strings the handlers put in a failed acknowledgement. *)
Inductive Reason := ROOM_ALREADY_EXISTS | ROOM_NOT_FOUND | ROOM_FULL.

(** The object handed to the acknowledgement callback:
    [{ ok: true }] or [{ ok: false, reason }]. *)
Record Result := { ok : bool; reason : option Reason }.

Definition success : Result := {| ok := true; reason := None |}.
Definition failure (r : Reason) : Result := {| ok := false; reason := Some r |}.

(** Messages the server emits to clients.  Payloads and signal types are
    forwarded without being looked at, so a string stands for them. *)
Inductive Message :=
| peer_joined (socketId : string)
| peer_left (socketId : string)
| signal (from type payload : string).

(** What one handler run sends out, in program order: [Ack id res] is
    [cb(res)] answering socket [id]; [Emit to msg] is one
    [socket.to(room).emit(...)] whose recipients are the sockets [to]. *)
Inductive Output :=
| Ack (socket : string) (res : Result)
| Emit (to : gset string) (msg : Message).

#[global] Instance Reason_eq_dec : EqDecision Reason.
Proof. solve_decision. Defined.
#[global] Instance Result_eq_dec : EqDecision Result.
Proof. solve_decision. Defined.
#[global] Instance Message_eq_dec : EqDecision Message.
Proof. solve_decision. Defined.
#[global] Instance Output_eq_dec : EqDecision Output.
Proof. solve_decision. Defined.

(** Server state.
    - [rooms]: the own properties of [const rooms = {}], each a
      [Set<socketId>];
    - [adapter]: socket.io's room membership ([socket.join],
      [socket.leave], [socket.to]), room name to sockets;
    - [sockets]: the ids of the sockets currently connected. *)
Record State := {
  rooms : gmap string (gset string);
  adapter : gmap string (gset string);
  sockets : gset string
}.

Definition initial : State := {| rooms := ∅; adapter := ∅; sockets := ∅ |}.

(** *** Property lookup on the [rooms] object

    [rooms] is a plain object literal, so [rooms[roomId]] falls back to
    [Object.prototype] when [roomId] is not an own property.  Every
    inherited member is truthy and none of them is a [Set]. *)
Inductive JSValue :=
| undefined
| SetObject (members : gset string)
| inherited.

Definition Object_prototype_names : list string :=
  [ "constructor"; "__proto__"; "hasOwnProperty"; "isPrototypeOf";
    "propertyIsEnumerable"; "toLocaleString"; "toString"; "valueOf";
    "__defineGetter__"; "__defineSetter__"; "__lookupGetter__";
    "__lookupSetter__" ].

Definition get (rooms : gmap string (gset string)) (roomId : string) : JSValue :=
  match rooms !! roomId with
  | Some members => SetObject members
  | None =>
      if bool_decide (roomId ∈ Object_prototype_names) then inherited
      else undefined
  end.

(** *** socket.io rooms *)

Definition sockets_in (a : gmap string (gset string)) (room : string) : gset string :=
  default ∅ (a !! room).

(** [socket.join(room)] *)
Definition adapter_add (room id : string) (a : gmap string (gset string))
  : gmap string (gset string) :=
  <[room := sockets_in a room ∪ {[id]}]> a.

(** [socket.leave(room)]; the adapter drops a room that becomes empty. *)
Definition adapter_del (room id : string) (a : gmap string (gset string))
  : gmap string (gset string) :=
  match a !! room with
  | None => a
  | Some s =>
      let s' := s ∖ {[id]} in
      if decide (s' = ∅) then delete room a else <[room := s']> a
  end.

(** What socket.io does itself when a socket closes, before the
    [disconnect] event is dispatched: the socket leaves every room. *)
Definition adapter_delAll (id : string) (a : gmap string (gset string))
  : gmap string (gset string) :=
  omap (λ s, let s' := s ∖ {[id]} in if decide (s' = ∅) then None else Some s') a.

(** [socket.to(room).emit(...)].  socket.io 4 (the [Server] export the
    file requires) builds the broadcast with the rooms [{room}] and the
    except-set [{socket.id}], and its adapter
    reads the except-set as room names: the packet goes to the sockets
    of [room] that are not in the room named by the sender's id.  A
    broadcast nobody receives sends nothing. *)
Definition broadcast (a : gmap string (gset string)) (id room : string)
    (msg : Message) : list Output :=
  let to := sockets_in a room ∖ sockets_in a id in
  if decide (to = ∅) then [] else [Emit to msg].

(** [cb && cb(res)]: the acknowledgement is sent when the client passed
    a callback. *)
Definition ack (cb : bool) (id : string) (res : Result) : list Output :=
  if cb then [Ack id res] else [].

(** *** Handlers

    A handler either returns, with the new state and what it sent, or
    raises a [TypeError]; in the two places where that happens nothing
    has been changed or sent yet. *)
Inductive Outcome :=
| Return (st : State) (out : list Output)
| TypeError.

(** [io.on('connection', ...)]: the handler only logs and registers the
    listeners below; socket.io has put the new socket in the room named
    by its own id. *)
Definition connection (st : State) (id : string) : State :=
  {| rooms := rooms st;
     adapter := adapter_add id id (adapter st);
     sockets := sockets st ∪ {[id]} |}.

(** [socket.on('create-room', (roomId, cb) => ...)] *)
Definition create_room (st : State) (id roomId : string) (cb : bool) : Outcome :=
  match get (rooms st) roomId with
  | undefined =>
      Return {| rooms := <[roomId := {[id]}]> (rooms st);
                adapter := adapter_add roomId id (adapter st);
                sockets := sockets st |}
             (ack cb id success)
  | _ => Return st (ack cb id (failure ROOM_ALREADY_EXISTS))
  end.

(** [socket.on('join-room', (roomId, cb) => ...)].  For an inherited
    property [room.size] is [undefined], [undefined >= 2] is false, and
    [room.add] is not a function. *)
Definition join_room (st : State) (id roomId : string) (cb : bool) : Outcome :=
  match get (rooms st) roomId with
  | undefined => Return st (ack cb id (failure ROOM_NOT_FOUND))
  | SetObject room =>
      if decide (2 ≤ size room)%nat then
        Return st (ack cb id (failure ROOM_FULL))
      else
        let a := adapter_add roomId id (adapter st) in
        Return {| rooms := <[roomId := room ∪ {[id]}]> (rooms st);
                  adapter := a;
                  sockets := sockets st |}
               (ack cb id success ++ broadcast a id roomId (peer_joined id))
  | inherited => TypeError
  end.

(** [socket.on('signal', ({ roomId, type, payload }) => ...)] *)
Definition on_signal (st : State) (id roomId type payload : string) : Outcome :=
  Return st (broadcast (adapter st) id roomId (signal id type payload)).

(** [function leaveRoom(socket, roomId)].  For an inherited property
    [rooms[roomId].delete] is not a function. *)
Definition leaveRoom (st : State) (id roomId : string) : Outcome :=
  match get (rooms st) roomId with
  | undefined => Return st []
  | SetObject room =>
      let room' := room ∖ {[id]} in
      let a := adapter_del roomId id (adapter st) in
      Return {| rooms := if decide (size room' = 0) then delete roomId (rooms st)
                         else <[roomId := room']> (rooms st);
                adapter := a;
                sockets := sockets st |}
             (broadcast a id roomId (peer_left id))
  | inherited => TypeError
  end.

(** [socket.on('leave-room', (roomId) => leaveRoom(socket, roomId))] *)
Definition leave_room (st : State) (id roomId : string) : Outcome :=
  leaveRoom st id roomId.

(** The loop of the [disconnect] handler over [Object.keys(rooms)],
    taken when the handler starts:
    [if (rooms[rid].has(socket.id)) leaveRoom(socket, rid)]. *)
Fixpoint disconnect_loop (keys : list string) (st : State) (id : string)
    (out : list Output) : Outcome :=
  match keys with
  | [] => Return st out
  | rid :: keys' =>
      match get (rooms st) rid with
      | SetObject room =>
          if decide (id ∈ room) then
            match leaveRoom st id rid with
            | Return st' o => disconnect_loop keys' st' id (out ++ o)
            | TypeError => TypeError
            end
          else disconnect_loop keys' st id out
      | _ => TypeError
      end
  end.

(** [socket.on('disconnect', ...)].  [keys] is [Object.keys(rooms)]:
    the own keys in the engine's enumeration order.  The socket has
    already left all its socket.io rooms. *)
Definition disconnect (keys : list string) (st : State) (id : string) : Outcome :=
  disconnect_loop keys
    {| rooms := rooms st;
       adapter := adapter_delAll id (adapter st);
       sockets := sockets st ∖ {[id]} |}
    id [].

(** [Object.keys(rooms)] lists every own key once, in some order. *)
Definition is_Object_keys (keys : list string) (m : gmap string (gset string)) : Prop :=
  keys ≡ₚ elements (dom m).

(** *** Runs of the server

    One step is one event handled to completion (the event loop runs
    handlers one at a time).  Events arrive only from connected sockets;
    a run ends at an uncaught [TypeError]. *)
Inductive step : State → list Output → State → Prop :=
| step_connection st id :
    id ∉ sockets st →
    step st [] (connection st id)
| step_create_room st id roomId cb st' out :
    id ∈ sockets st →
    create_room st id roomId cb = Return st' out →
    step st out st'
| step_join_room st id roomId cb st' out :
    id ∈ sockets st →
    join_room st id roomId cb = Return st' out →
    step st out st'
| step_signal st id roomId type payload st' out :
    id ∈ sockets st →
    on_signal st id roomId type payload = Return st' out →
    step st out st'
| step_leave_room st id roomId st' out :
    id ∈ sockets st →
    leave_room st id roomId = Return st' out →
    step st out st'
| step_disconnect st id keys st' out :
    id ∈ sockets st →
    is_Object_keys keys (rooms st) →
    disconnect keys st id = Return st' out →
    step st out st'.

Inductive reachable : State → Prop :=
| reachable_initial : reachable initial
| reachable_step st out st' : reachable st → step st out st' → reachable st'.

(** [m] is told [msg] by a handler run that sent [out]. *)
Definition notified (m : string) (msg : Message) (out : list Output) : Prop :=
  ∃ to, Emit to msg ∈ out ∧ m ∈ to.

(** *** Invariants of the reachable states *)

(** [inv_size]: a stored room has one or two members.
    [inv_joined]: the members of a stored room are in the socket.io room
    of the same name.
    [inv_adapter]: a socket.io room holds only the members of the stored
    room of that name and, possibly, the connected socket whose id is
    the room name.
    [inv_connected]: members are connected sockets.
    [inv_own]: no stored room id is a member name of [Object.prototype]. *)
Record invariant (st : State) : Prop := {
  inv_size : ∀ r m, rooms st !! r = Some m → (1 ≤ size m ≤ 2)%nat;
  inv_joined : ∀ r m, rooms st !! r = Some m → m ⊆ sockets_in (adapter st) r;
  inv_adapter : ∀ r,
    sockets_in (adapter st) r ⊆ default ∅ (rooms st !! r) ∪ ({[r]} ∩ sockets st);
  inv_connected : ∀ r m, rooms st !! r = Some m → m ⊆ sockets st;
  inv_own : ∀ r m, rooms st !! r = Some m → r ∉ Object_prototype_names
}.

(** The same while socket [id] is being disconnected: it has left the
    socket.io rooms and the connected sockets but may still be listed in
    stored rooms. *)
Record leaving (id : string) (st : State) : Prop := {
  lv_size : ∀ r m, rooms st !! r = Some m → (1 ≤ size m ≤ 2)%nat;
  lv_joined : ∀ r m, rooms st !! r = Some m → m ∖ {[id]} ⊆ sockets_in (adapter st) r;
  lv_adapter : ∀ r,
    sockets_in (adapter st) r ⊆
      (default ∅ (rooms st !! r) ∖ {[id]}) ∪ ({[r]} ∩ sockets st);
  lv_connected : ∀ r m, rooms st !! r = Some m → m ∖ {[id]} ⊆ sockets st;
  lv_own : ∀ r m, rooms st !! r = Some m → r ∉ Object_prototype_names;
  lv_gone : id ∉ sockets st
}.

(** What is stored for a room after [id] is deleted from its member
    set: nothing when that empties it. *)
Definition remaining (room : gset string) (id : string) : option (gset string) :=
  if decide (room ∖ {[id]} = ∅) then None else Some (room ∖ {[id]}).

(** *** A concrete run

    Sockets [A] and [B] connect, [A] creates room [r1], [B] joins it. *)

Definition state_of (o : Outcome) : State :=
  match o with Return st _ => st | TypeError => initial end.

Definition output_of (o : Outcome) : list Output :=
  match o with Return _ out => out | TypeError => [] end.

Definition two_connected : State := connection (connection initial "A") "B".
Definition room_created : State := state_of (create_room two_connected "A" "r1" true).
Definition room_joined : State := state_of (join_room room_created "B" "r1" true).

(** A third socket [C] connects and stays out of the room. *)
Definition with_bystander : State := connection room_joined "C".

(** Another run: [B] first creates a room under [A]'s socket id, then
    [A] creates [r1] and [B] joins it.  [B] now sits in the socket.io
    room named ["A"]. *)
Definition shadowed : State :=
  state_of (join_room
              (state_of (create_room
                           (state_of (create_room two_connected "B" "A" true))
                           "A" "r1" true))
              "B" "r1" true).

(** And one more: [A] creates a room under its own socket id and leaves
    it again, which takes [A] out of the socket.io room named ["A"];
    then [A] creates [r1] and [B] joins it. *)
Definition unsheltered : State :=
  state_of (join_room
              (state_of (create_room
                           (state_of (leave_room
                                        (state_of (create_room two_connected "A" "A" true))
                                        "A" "A"))
                           "A" "r1" true))
              "B" "r1" true).

(** Room ids and socket ids are apart: every connected socket is alone
    in the socket.io room named by its own id. *)
Definition apart (st : State) : Prop :=
  ∀ s, s ∈ sockets st → sockets_in (adapter st) s = {[s]}.

(** What the [disconnect] handler sends for one key of the table: the
    [peer-left] broadcast of [leaveRoom] when the socket is listed in
    that room, nothing otherwise. *)
Definition peer_left_for (st : State) (id rid : string) : list Output :=
  match rooms st !! rid with
  | Some room =>
      if decide (id ∈ room) then broadcast (adapter st) id rid (peer_left id)
      else []
  | None => []
  end.

(** The state in which the [disconnect] handler of socket [id] starts. *)
Definition closing (st : State) (id : string) : State :=
  {| rooms := rooms st;
     adapter := adapter_delAll id (adapter st);
     sockets := sockets st ∖ {[id]} |}.

End Relay.

(** ** The client hooks *)

Module Client.

#[local] Open Scope string_scope.

(** *** utils/socketConfig.js *)

Definition MAX_RECONNECT_ATTEMPTS : nat := 5.
Definition INITIAL_RECONNECT_DELAY : Z := 1000.

(** *** The browser and the socket, as the hooks use them *)

(** How a call that may throw, or an awaited promise, ends. *)
Inductive completion (A : Type) :=
| normal (a : A)
| throw (err : string).
Arguments normal {A} a.
Arguments throw {A} err.

(** A media stream is the list of its tracks; a track is named by its
    label. *)
Abbreviation MediaStream := (list string) (only parsing).

(** A mounted video element. *)
Record Video := { srcObject : option MediaStream }.

(** [RTCPeerConnection]: the constructor and the methods the hook calls.
    The object is mutable, so a method hands back the object as it is
    afterwards together with how the call ended.  Nothing is assumed
    about which calls fail. *)
Class RTCPeerConnection := {
  PC : Type;
  new_RTCPeerConnection : completion PC;
  addTracks : PC → MediaStream → PC * completion unit;
  createOffer_ : PC → PC * completion string;
  createAnswer_ : PC → PC * completion string;
  setLocalDescription : PC → string → PC * completion unit;
  setRemoteDescription : PC → string → PC * completion unit;
  addIceCandidate : PC → string → PC * completion unit;
  localDescription : PC → string;
  close_ : PC → completion unit
}.

(** The socket.io client socket. *)
Record Socket := { connected : bool }.

(** [{ type, payload }], what [usePeerConnection] hands to
    [onSendSignal]. *)
Record SignalData := { type : string; payload : string }.

(** The calls that leave the hooks, in the order they are made.
    [console.log] lines are not recorded. *)
Inductive Effect :=
| track_stop (label : string)
| RTCPeerConnection_close
| socket_emit_signal (roomId type payload : string)
| socket_removeAllListeners
| socket_disconnect
| console_warn (msg : string)
| console_error (msg : string).

(** What a pending timer will run. *)
Inductive Task :=
| call_onReconnect (given : bool)
| connection_timeout
| reconnection_monitor.

Record Timer := { timer_id : positive; delay : Z; task : Task }.

(** Pending timers, the id the next [setTimeout] returns, and the effects
    so far.  A browser's timer ids are positive integers, so a ref that
    holds one is truthy. *)
Record Env := { timers : list Timer; next_timer : positive; effects : list Effect }.

Definition log (new : list Effect) (e : Env) : Env :=
  {| timers := timers e; next_timer := next_timer e; effects := effects e ++ new |}.

(** [setTimeout(task, delay)]; the id returned is [next_timer e]. *)
Definition setTimeout (t : Task) (ms : Z) (e : Env) : Env :=
  {| timers := timers e ++ [{| timer_id := next_timer e; delay := ms; task := t |}];
     next_timer := Pos.succ (next_timer e);
     effects := effects e |}.

(** [clearTimeout(id)] and [clearInterval(id)] *)
Definition clearTimeout (id : positive) (e : Env) : Env :=
  {| timers := filter (λ t, timer_id t ≠ id) (timers e);
     next_timer := next_timer e;
     effects := effects e |}.

(** [if (ref.current) { clearTimeout(ref.current); ... }] *)
Definition clear_ref (ref : option positive) (e : Env) : Env :=
  match ref with Some id => clearTimeout id e | None => e end.

(** *** State of the hooks

    A ref is a field; a [useState] cell is a field that its setter
    writes at once. *)

(** [useMediaStream] *)
Record Media := {
  localStreamRef : option MediaStream;
  localVideoRef : option Video;
  muted : bool;
  videoOff : bool;
  mediaError : option string
}.

(** [useSocketConnection] *)
Record Channel := {
  socketRef : option Socket;
  isConnected : bool;
  socketError : option string;
  socketReconnecting : bool;
  socketRetryCount : nat;
  socketReconnectAttemptsRef : nat;
  reconnectIntervalRef : option positive;
  connectionTimeoutRef : option positive
}.

(** [useRoomConnection]'s own cells *)
Record Room := {
  status : string;
  error : option string;
  reconnecting : bool;
  retryCount : nat
}.

Section Hooks.

Context `{RTCPeerConnection}.

(** [usePeerConnection] *)
Record Peer := {
  pcRef : option PC;
  connectionState : string;
  peerReconnectAttemptsRef : nat;
  reconnectTimeoutRef : option positive;
  remoteVideoRef : option Video
}.

Record World := {
  roomId : string;
  isCreator : bool;
  media : Media;
  peer : Peer;
  channel : Channel;
  room : Room;
  env : Env
}.

Definition set_peer (p : Peer) (w : World) : World :=
  {| roomId := roomId w; isCreator := isCreator w; media := media w;
     peer := p; channel := channel w; room := room w; env := env w |}.

Definition set_env (e : Env) (w : World) : World :=
  {| roomId := roomId w; isCreator := isCreator w; media := media w;
     peer := peer w; channel := channel w; room := room w; env := e |}.

Definition set_room (r : Room) (w : World) : World :=
  {| roomId := roomId w; isCreator := isCreator w; media := media w;
     peer := peer w; channel := channel w; room := r; env := env w |}.

Definition set_pcRef (pc : option PC) (w : World) : World :=
  set_peer {| pcRef := pc;
              connectionState := connectionState (peer w);
              peerReconnectAttemptsRef := peerReconnectAttemptsRef (peer w);
              reconnectTimeoutRef := reconnectTimeoutRef (peer w);
              remoteVideoRef := remoteVideoRef (peer w) |} w.

Definition set_status (s : string) (r : Room) : Room :=
  {| status := s; error := error r; reconnecting := reconnecting r;
     retryCount := retryCount r |}.

Definition set_reconnecting (b : bool) (r : Room) : Room :=
  {| status := status r; error := error r; reconnecting := b;
     retryCount := retryCount r |}.

Definition log_effects (new : list Effect) (w : World) : World :=
  set_env (log new (env w)) w.

(** *** useSocketConnection *)

(** [sendSignal(data)] *)
Definition sendSignal (data : SignalData) (w : World) : World :=
  match socketRef (channel w) with
  | Some socket =>
      if connected socket then
        log_effects [socket_emit_signal (roomId w) (type data) (payload data)] w
      else w
  | None => w
  end.

(** [disconnect()] of the hook: clears the connection timeout, stops the
    reconnection monitor, drops the socket.  The two calls on the socket
    sit in a [try] whose handler only warns; they are taken not to
    throw. *)
Definition disconnect (c : Channel) (e : Env) : Channel * Env :=
  let e1 := clear_ref (connectionTimeoutRef c) e in
  let e2 := clear_ref (reconnectIntervalRef c) e1 in
  let e3 := match socketRef c with
            | Some _ => log [socket_removeAllListeners; socket_disconnect] e2
            | None => e2
            end in
  ({| socketRef := None;
      isConnected := false;
      socketError := None;
      socketReconnecting := false;
      socketRetryCount := 0;
      socketReconnectAttemptsRef := 0;
      reconnectIntervalRef := None;
      connectionTimeoutRef := None |}, e3).

(** *** useMediaStream *)

(** [stopStream()] *)
Definition stopStream (m : Media) (e : Env) : Media * Env :=
  let e1 := match localStreamRef m with
            | Some tracks => log (track_stop <$> tracks) e
            | None => e
            end in
  ({| localStreamRef := None;
      localVideoRef := (λ _, {| srcObject := None |}) <$> localVideoRef m;
      muted := false;
      videoOff := false;
      mediaError := None |}, e1).

(** *** usePeerConnection *)

(** [close()] *)
Definition close (p : Peer) (e : Env) : Peer * Env :=
  let e1 := clear_ref (reconnectTimeoutRef p) e in
  let e2 := match pcRef p with
            | Some pc =>
                match close_ pc with
                | normal _ => log [RTCPeerConnection_close] e1
                | throw _ =>
                    log [RTCPeerConnection_close;
                         console_warn "[usePeerConnection] Error closing peer connection:"] e1
                end
            | None => e1
            end in
  ({| pcRef := None;
      connectionState := "closed";
      peerReconnectAttemptsRef := 0;
      reconnectTimeoutRef := None;
      remoteVideoRef := (λ _, {| srcObject := None |}) <$> remoteVideoRef p |}, e2).

(** The exponential backoff of [attemptReconnection]:
    [Math.min(INITIAL_RECONNECT_DELAY * Math.pow(2, attempts - 1), 16000)] *)
Definition backoff (attempts : nat) : Z :=
  Z.min (INITIAL_RECONNECT_DELAY * 2 ^ (Z.of_nat attempts - 1)) 16000.

(** [attemptReconnection(onReconnect)]; [given] tells whether a callback
    was passed. *)
Definition attemptReconnection (given : bool) (p : Peer) (e : Env)
  : bool * Peer * Env :=
  if decide (MAX_RECONNECT_ATTEMPTS ≤ peerReconnectAttemptsRef p)%nat then
    (false, p, e)
  else
    let attempts := S (peerReconnectAttemptsRef p) in
    let e1 := clear_ref (reconnectTimeoutRef p) e in
    let e2 := setTimeout (call_onReconnect given) (backoff attempts) e1 in
    (true,
     {| pcRef := pcRef p;
        connectionState := connectionState p;
        peerReconnectAttemptsRef := attempts;
        reconnectTimeoutRef := Some (next_timer e1);
        remoteVideoRef := remoteVideoRef p |},
     e2).

(** **** Signal handlers

    [Async A] is an [async] function of the hook: it runs on the world
    and either returns or throws, keeping what it changed.  An [await]
    is taken to settle before any other event is handled. *)
Definition Async (A : Type) : Type := World → completion A * World.

Definition ret {A} (a : A) : Async A := λ w, (normal a, w).

Definition bind {A B} (m : Async A) (k : A → Async B) : Async B :=
  λ w, match m w with
       | (normal a, w') => k a w'
       | (throw err, w') => (throw err, w')
       end.

(** [try { m } catch (err) { handler }] *)
Definition try_catch {A} (m : Async A) (handler : string → Async A) : Async A :=
  λ w, match m w with
       | (normal a, w') => (normal a, w')
       | (throw err, w') => handler err w'
       end.

Notation "'let*' x ':=' m 'in' k" := (bind m (λ x, k))
  (at level 10, x name, m at level 100, k at level 200, only parsing).

(** A method call on [pcRef.current]; on [null] it is a TypeError. *)
Definition call {A} (method : PC → PC * completion A) : Async A :=
  λ w, match pcRef (peer w) with
       | Some pc => let '(pc', r) := method pc in (r, set_pcRef (Some pc') w)
       | None => (throw "TypeError", w)
       end.

Definition effect (new : list Effect) : Async unit :=
  λ w, (normal tt, log_effects new w).

(** [initPeerConnection()]: creates the connection unless there is one,
    stores it in [pcRef], then adds the local tracks. *)
Definition initPeerConnection : Async unit :=
  λ w, match pcRef (peer w) with
       | Some _ => (normal tt, w)
       | None =>
           match new_RTCPeerConnection with
           | throw err => (throw err, w)
           | normal pc =>
               match localStreamRef (media w) with
               | Some stream =>
                   let '(pc', r) := addTracks pc stream in
                   (r, set_pcRef (Some pc') w)
               | None => (normal tt, set_pcRef (Some pc) w)
               end
           end
       end.

(** [handleOffer(offer)]; [new RTCSessionDescription(offer)] is part of
    [setRemoteDescription] here. *)
Definition handleOffer (offer : string) : Async unit :=
  try_catch
    (let* _ := initPeerConnection in
     let* _ := call (λ pc, setRemoteDescription pc offer) in
     let* answer := call createAnswer_ in
     let* _ := call (λ pc, setLocalDescription pc answer) in
     let* description := call (λ pc, (pc, normal (localDescription pc))) in
     λ w, (normal tt, sendSignal {| type := "answer"; payload := description |} w))
    (λ err w,
       (throw err,
        log_effects [console_error "[usePeerConnection] handleOffer error"] w)).

(** [handleAnswer(answer)] *)
Definition handleAnswer (answer : string) : Async unit :=
  try_catch
    (λ w, match pcRef (peer w) with
          | None =>
              effect [console_warn "[usePeerConnection] Peer connection not initialized"] w
          | Some _ => call (λ pc, setRemoteDescription pc answer) w
          end)
    (λ err w,
       (throw err,
        log_effects [console_error "[usePeerConnection] handleAnswer error"] w)).

(** [handleIceCandidate(candidate)] *)
Definition handleIceCandidate (candidate : string) : Async unit :=
  try_catch
    (λ w, match pcRef (peer w) with
          | None =>
              effect [console_warn "[usePeerConnection] Peer connection not initialized"] w
          | Some _ => call (λ pc, addIceCandidate pc candidate) w
          end)
    (λ err, effect [console_warn "[usePeerConnection] Error adding ICE candidate"]).

(** [handleSignal({ type, payload })] *)
Definition handleSignal (data : SignalData) : Async unit :=
  if decide (type data = "offer") then handleOffer (payload data)
  else if decide (type data = "answer") then handleAnswer (payload data)
  else if decide (type data = "ice-candidate") then handleIceCandidate (payload data)
  else ret tt.

(** *** useRoomConnection *)

(** [endCall()] *)
Definition endCall (w : World) : World :=
  let '(m, e1) := stopStream (media w) (env w) in
  let '(p, e2) := close (peer w) e1 in
  let '(c, e3) := disconnect (channel w) e2 in
  {| roomId := roomId w;
     isCreator := isCreator w;
     media := m;
     peer := p;
     channel := c;
     room := {| status := "disconnected"; error := None;
                reconnecting := false; retryCount := 0 |};
     env := e3 |}.

(** [handlePeerConnectionStateChange(state)]; [socketConnected] is the
    channel's [isConnected] cell and [peerConnectionRef.current] is set
    once the hook is mounted. *)
Definition handlePeerConnectionStateChange (state : string) (w : World) : World :=
  if decide (state = "connected") then
    set_room (set_reconnecting false (set_status "connected" (room w))) w
  else if decide (state = "disconnected" ∨ state = "failed") then
    let w1 := set_room (set_status "disconnected" (room w)) w in
    if isConnected (channel w1) then
      let '(reconnected, p, e) := attemptReconnection true (peer w1) (env w1) in
      set_room (set_reconnecting reconnected (room w1)) (set_env e (set_peer p w1))
    else w1
  else if decide (state = "connecting" ∨ state = "checking") then
    set_room (set_status "connecting" (room w)) w
  else w.






End Hooks.

(** *** joinRoom of useSocketConnection

    The retries run in timer and acknowledgement callbacks.  They are
    unrolled here into the list of what the hook does, in order, against
    a given course of events: whether the socket is there and connected
    when attempt [k] starts, whether [socketRef.current] still holds a
    socket when the creator's fallback timer of attempt [k] fires, and
    what the server acknowledges.  [None] is an acknowledgement that
    never comes.  Console output is left out of the list. *)

(** The acknowledgement as the client reads it. *)
Record Result := { ok : bool; reason : option string }.

Record Course := {
  connected_at : nat → bool;
  create_reply : nat → option Result;
  socket_at_fallback : nat → bool;
  join_reply : nat → option Result
}.

Inductive Action :=
| do_emit (event roomId : string)
| do_setTimeout (ms : Z)
| do_setError (msg : option string)
| do_onError (msg : string)
| do_onSuccess
| uncaught_TypeError.

#[global] Instance Action_eq_dec : EqDecision Action.
Proof. solve_decision. Defined.

(** [res.reason || 'unknown'] *)
Definition or_unknown (r : option string) : string :=
  match r with
  | Some s => if decide (s = "") then "unknown" else s
  | None => "unknown"
  end.

Definition connection_lost : string := "Connection lost. Please retry.".

Definition could_not_create (res : Result) : string :=
  "Could not create room: " ++ or_unknown (reason res).

Definition could_not_join_fallback (res : Result) : string :=
  "Could not join room: " ++ or_unknown (reason res) ++ ". Please check the room ID.".

Definition could_not_join (res : Result) : string :=
  "Could not join room: " ++ or_unknown (reason res) ++
  ". Please check the room ID and ensure the room creator is connected and has granted camera permissions.".

Definition waiting_for_room (attempt maxAttempts : nat) : string :=
  "Room not found. Waiting for room to be created... (" ++ pretty attempt ++ "/" ++
  pretty maxAttempts ++ ")".

(** [const rejoinRoom = (attempt = 1, maxAttempts = 5) => ...].  The
    creator's fallback timer calls [socketRef.current.emit] with no
    check: when [disconnect()] has emptied the ref meanwhile, the timer
    callback ends in a TypeError nobody catches. *)
Equations? rejoinRoom (c : Course) (isCreator : bool) (roomId : string)
    (attempt maxAttempts : nat) : list Action
  by wf (maxAttempts - attempt)%nat lt :=
rejoinRoom c isCreator roomId attempt maxAttempts :=
  if negb (connected_at c attempt) then
    [do_setError (Some connection_lost); do_onError connection_lost]
  else if isCreator then
    do_emit "create-room" roomId ::
    match create_reply c attempt with
    | None => []
    | Some res =>
        if ok res then [do_setError None; do_onSuccess]
        else if bool_decide (attempt < maxAttempts)%nat
                && bool_decide (reason res = Some "ROOM_ALREADY_EXISTS") then
          do_setTimeout (1000 * Z.of_nat attempt) ::
          if socket_at_fallback c attempt then
            do_emit "join-room" roomId ::
            match join_reply c attempt with
            | None => []
            | Some joinRes =>
                if ok joinRes then [do_setError None; do_onSuccess]
                else [do_setError (Some (could_not_join_fallback joinRes));
                      do_onError (could_not_join_fallback joinRes)]
            end
          else [uncaught_TypeError]
        else [do_setError (Some (could_not_create res));
              do_onError (could_not_create res)]
    end
  else
    do_emit "join-room" roomId ::
    match join_reply c attempt with
    | None => []
    | Some res =>
        if ok res then [do_setError None; do_onSuccess]
        else
          match lt_dec attempt maxAttempts with
          | left _ =>
              if bool_decide (reason res = Some "ROOM_NOT_FOUND") then
                do_setError (Some (waiting_for_room attempt maxAttempts)) ::
                do_setTimeout (2000 * Z.of_nat attempt) ::
                rejoinRoom c isCreator roomId (S attempt) maxAttempts
              else [do_setError (Some (could_not_join res));
                    do_onError (could_not_join res)]
          | right _ => [do_setError (Some (could_not_join res));
                        do_onError (could_not_join res)]
          end
    end.
Proof. lia. Qed.

(** [joinRoom(onSuccess, onError)]: [rejoinRoom()] runs with its default
    arguments after 100 ms. *)
Definition joinRoom (c : Course) (isCreator : bool) (roomId : string) : list Action :=
  if negb (connected_at c 0) then [do_onError "Socket not connected"]
  else do_setTimeout 100 :: rejoinRoom c isCreator roomId 1 5.

(** The [join-room] requests and the timer delays of a run. *)
Definition join_requests (l : list Action) : nat :=
  length (omap (λ a, match a with
                     | do_emit event roomId =>
                         if decide (event = "join-room") then Some roomId else None
                     | _ => None
                     end) l).

Definition delays (l : list Action) : list Z :=
  omap (λ a, match a with do_setTimeout ms => Some ms | _ => None end) l.

(** A server on which the room is never created, and a full room. *)
Definition never_created : Course :=
  {| connected_at := λ _, true;
     create_reply := λ _, None;
     socket_at_fallback := λ _, true;
     join_reply := λ _, Some {| ok := false; reason := Some "ROOM_NOT_FOUND" |} |}.

Definition room_is_full : Course :=
  {| connected_at := λ _, true;
     create_reply := λ _, None;
     socket_at_fallback := λ _, true;
     join_reply := λ _, Some {| ok := false; reason := Some "ROOM_FULL" |} |}.

(** A creator who finds the room already there and ends the call while
    the fallback timer is pending. *)
Definition ended_meanwhile : Course :=
  {| connected_at := λ _, true;
     create_reply := λ _, Some {| ok := false; reason := Some "ROOM_ALREADY_EXISTS" |};
     socket_at_fallback := λ _, false;
     join_reply := λ _, Some {| ok := true; reason := None |} |}.

(** *** A scripted browser and a call in progress *)

(** A peer connection on which every call succeeds but
    [addIceCandidate] and [setRemoteDescription], which reject. *)
Definition rejecting : RTCPeerConnection :=
  {| PC := unit;
     new_RTCPeerConnection := normal tt;
     addTracks := λ pc _, (pc, normal tt);
     createOffer_ := λ pc, (pc, normal "offer-sdp");
     createAnswer_ := λ pc, (pc, normal "answer-sdp");
     setLocalDescription := λ pc _, (pc, normal tt);
     setRemoteDescription := λ pc _, (pc, throw "InvalidStateError");
     addIceCandidate := λ pc _, (pc, throw "OperationError");
     localDescription := λ _, "local-sdp";
     close_ := λ _, normal tt |}.

Definition in_call (socket_connected : bool) (attempts : nat) : @World rejecting :=
  {| roomId := "r1";
     isCreator := true;
     media := {| localStreamRef := Some ["audio"; "video"];
                 localVideoRef := Some {| srcObject := Some ["audio"; "video"] |};
                 muted := false; videoOff := false; mediaError := None |};
     peer := {| pcRef := Some (tt : @PC rejecting);
                connectionState := "connected";
                peerReconnectAttemptsRef := attempts;
                reconnectTimeoutRef := None;
                remoteVideoRef := Some {| srcObject := Some ["remote"] |} |};
     channel := {| socketRef := Some {| connected := socket_connected |};
                   isConnected := socket_connected;
                   socketError := None;
                   socketReconnecting := false;
                   socketRetryCount := 0;
                   socketReconnectAttemptsRef := 0;
                   reconnectIntervalRef := None;
                   connectionTimeoutRef := None |};
     room := {| status := "connected"; error := None;
                reconnecting := false; retryCount := 0 |};
     env := {| timers := []; next_timer := 1%positive; effects := [] |} |}.

(** *** useSocketConnection: reconnection monitoring and socket events *)

Definition set_interval_ref (ref : option positive) (c : Channel) : Channel :=
  {| socketRef := socketRef c;
     isConnected := isConnected c;
     socketError := socketError c;
     socketReconnecting := socketReconnecting c;
     socketRetryCount := socketRetryCount c;
     socketReconnectAttemptsRef := socketReconnectAttemptsRef c;
     reconnectIntervalRef := ref;
     connectionTimeoutRef := connectionTimeoutRef c |}.

(** [setReconnecting], [setRetryCount] and the attempts ref, written
    together as the handlers do. *)
Definition set_progress (attempts : nat) (reconnecting : bool) (retries : nat)
    (c : Channel) : Channel :=
  {| socketRef := socketRef c;
     isConnected := isConnected c;
     socketError := socketError c;
     socketReconnecting := reconnecting;
     socketRetryCount := retries;
     socketReconnectAttemptsRef := attempts;
     reconnectIntervalRef := reconnectIntervalRef c;
     connectionTimeoutRef := connectionTimeoutRef c |}.

(** [stopMonitoringReconnection()] *)
Definition stopMonitoringReconnection (c : Channel) (e : Env) : Channel * Env :=
  (set_interval_ref None c, clear_ref (reconnectIntervalRef c) e).

(** [startMonitoringReconnection()].  The interval is a pending timer
    whose task is [reconnection_monitor]; it stays pending until it is
    cleared. *)
Definition startMonitoringReconnection (c : Channel) (e : Env) : Channel * Env :=
  let '(c1, e1) := stopMonitoringReconnection c e in
  (set_interval_ref (Some (next_timer e1)) c1,
   setTimeout reconnection_monitor INITIAL_RECONNECT_DELAY e1).

(** The callback of that interval, run every [INITIAL_RECONNECT_DELAY]
    ms. *)
Definition monitor_tick (c : Channel) (e : Env) : Channel * Env :=
  match socketRef c with
  | None => stopMonitoringReconnection c e
  | Some socket =>
      if negb (connected socket)
         && bool_decide (socketReconnectAttemptsRef c < MAX_RECONNECT_ATTEMPTS)%nat
      then
        (set_progress (S (socketReconnectAttemptsRef c)) true
                      (S (socketReconnectAttemptsRef c)) c, e)
      else if connected socket then
        let '(c1, e1) := stopMonitoringReconnection c e in
        (set_progress 0 false 0 c1, e1)
      else if bool_decide (MAX_RECONNECT_ATTEMPTS ≤ socketReconnectAttemptsRef c)%nat then
        let '(c1, e1) := stopMonitoringReconnection c e in
        (set_progress (socketReconnectAttemptsRef c1) false (socketRetryCount c1) c1, e1)
      else (c, e)
  end.

(** [n] runs of the interval callback. *)
Fixpoint ticks (n : nat) (c : Channel) (e : Env) : Channel * Env :=
  match n with
  | O => (c, e)
  | S n' => let '(c1, e1) := ticks n' c e in monitor_tick c1 e1
  end.

(** The listener for [connect].  The boolean tells whether [onConnect]
    was called (and the promise of [connect] resolved). *)
Definition on_connect (c : Channel) (e : Env) : bool * Channel * Env :=
  let e1 := clear_ref (connectionTimeoutRef c) e in
  let e2 := clear_ref (reconnectIntervalRef c) e1 in
  let c' := {| socketRef := socketRef c;
               isConnected := true;
               socketError := None;
               socketReconnecting := false;
               socketRetryCount := 0;
               socketReconnectAttemptsRef := 0;
               reconnectIntervalRef := None;
               connectionTimeoutRef := None |} in
  (match socketRef c with
   | Some socket => connected socket
   | None => false
   end, c', e2).

(** The listener for [disconnect]. *)
Definition on_disconnect (reason : string) (c : Channel) (e : Env) : Channel * Env :=
  let c1 := {| socketRef := socketRef c;
               isConnected := false;
               socketError := socketError c;
               socketReconnecting := socketReconnecting c;
               socketRetryCount := socketRetryCount c;
               socketReconnectAttemptsRef := socketReconnectAttemptsRef c;
               reconnectIntervalRef := reconnectIntervalRef c;
               connectionTimeoutRef := connectionTimeoutRef c |} in
  if decide (reason = "io client disconnect") then (c1, e)
  else
    startMonitoringReconnection
      (set_progress 0 true (socketRetryCount c1) c1) e.

(** The listeners for [reconnecting] and [reconnect_attempt]. *)
Definition on_reconnect_attempt (attemptNumber : nat) (c : Channel) : Channel :=
  set_progress attemptNumber true attemptNumber c.

(** The listener for [reconnect]. *)
Definition on_reconnect (c : Channel) (e : Env) : Channel * Env :=
  let '(c1, e1) := stopMonitoringReconnection
                     (set_progress 0 (socketReconnecting c) (socketRetryCount c) c) e in
  ({| socketRef := socketRef c1;
      isConnected := true;
      socketError := socketError c1;
      socketReconnecting := socketReconnecting c1;
      socketRetryCount := socketRetryCount c1;
      socketReconnectAttemptsRef := socketReconnectAttemptsRef c1;
      reconnectIntervalRef := reconnectIntervalRef c1;
      connectionTimeoutRef := connectionTimeoutRef c1 |}, e1).

(** A timer ref owns the pending timers of one kind: every pending timer
    of that kind is the one the ref holds.  Timer ids are handed out in
    increasing order. *)
Definition fresh_ids (e : Env) : Prop :=
  ∀ t, t ∈ timers e → (timer_id t < next_timer e)%positive.

Definition owns (kind : Task → bool) (ref : option positive) (e : Env) : Prop :=
  ∀ t, t ∈ timers e → kind (task t) = true → ref = Some (timer_id t).

Definition is_monitor (t : Task) : bool :=
  match t with reconnection_monitor => true | _ => false end.

Definition is_onReconnect (t : Task) : bool :=
  match t with call_onReconnect _ => true | _ => false end.

(** A channel whose socket has dropped, as the [disconnect] listener
    finds it. *)
Definition dropped : Channel :=
  {| socketRef := Some {| connected := false |};
     isConnected := true;
     socketError := None;
     socketReconnecting := false;
     socketRetryCount := 0;
     socketReconnectAttemptsRef := 0;
     reconnectIntervalRef := None;
     connectionTimeoutRef := None |}.

Definition no_timers : Env :=
  {| timers := []; next_timer := 1%positive; effects := [] |}.

(** *** utils/errorMessages.js *)

(** An error object: its [name] and its [message]. *)
Record JSError := { name : string; message : string }.

(** [haystack.includes(needle)] *)
Fixpoint includes (needle haystack : string) : bool :=
  String.prefix needle haystack ||
  match haystack with
  | EmptyString => false
  | String _ rest => includes needle rest
  end.

Definition default_error_message : string :=
  "An error occurred while starting the connection.".

(** [formatErrorMessage(err, defaultMessage)]; [None] is a missing
    error. *)
Definition formatErrorMessage (err : option JSError) (defaultMessage : string) : string :=
  match err with
  | None => defaultMessage
  | Some err =>
      if decide (name err = "NotAllowedError" ∨ name err = "PermissionDeniedError") then
        "Camera and microphone access was denied. Please allow access in your browser settings and try again."
      else if decide (name err = "NotFoundError" ∨ name err = "DevicesNotFoundError") then
        "No camera or microphone found. Please connect a camera and microphone and try again."
      else if decide (name err = "NotReadableError" ∨ name err = "TrackStartError") then
        "Camera or microphone is already in use by another application. Please close other applications and try again."
      else if decide (name err = "OverconstrainedError"
                      ∨ name err = "ConstraintNotSatisfiedError") then
        "Camera or microphone does not support the required settings. Please try again."
      else if bool_decide (name err = "TypeError")
              && includes "getUserMedia" (message err) then
        "Your browser does not support camera/microphone access. Please use a modern browser like Chrome, Firefox, or Edge."
      else if decide (message err = "") then defaultMessage
      else "Error: " ++ message err
  end.

(** *** useMediaStream: getUserMedia *)

(** How a call of [navigator.mediaDevices.getUserMedia] ends. *)
Inductive MediaOutcome :=
| granted (stream : MediaStream)
| refused (err : JSError).

(** [getUserMedia()] of the hook.  [ideal] is the outcome of the request
    with the 1280x720 constraints and [plain] that of the request with
    [{ video: true, audio: true }], which is made only when the first is
    refused.  Console output is left out. *)
Definition getUserMedia (ideal plain : MediaOutcome) (m : Media)
  : MediaOutcome * Media :=
  let outcome := match ideal with
                 | granted stream => granted stream
                 | refused _ => plain
                 end in
  match outcome with
  | granted stream =>
      (granted stream,
       {| localStreamRef := Some stream;
          localVideoRef := (λ _, {| srcObject := Some stream |}) <$> localVideoRef m;
          muted := muted m;
          videoOff := videoOff m;
          mediaError := None |})
  | refused err =>
      (refused err,
       {| localStreamRef := localStreamRef m;
          localVideoRef := localVideoRef m;
          muted := muted m;
          videoOff := videoOff m;
          mediaError := Some (formatErrorMessage (Some err) default_error_message) |})
  end.

Section MoreHooks.

Context `{RTCPeerConnection}.

Notation "'let*' x ':=' m 'in' k" := (bind m (λ x, k))
  (at level 10, x name, m at level 100, k at level 200, only parsing).

(** *** usePeerConnection: createOffer, reconnect, connection events *)

(** [createOffer()] *)
Definition createOffer : Async unit :=
  try_catch
    (let* _ := (λ w, match pcRef (peer w) with
                     | Some _ => (normal tt, w)
                     | None =>
                         initPeerConnection
                           (log_effects
                              [console_warn "[usePeerConnection] Peer connection not initialized, initializing now..."] w)
                     end) in
     let* offer := call createOffer_ in
     let* _ := call (λ pc, setLocalDescription pc offer) in
     let* description := call (λ pc, (pc, normal (localDescription pc))) in
     λ w, (normal tt, sendSignal {| type := "offer"; payload := description |} w))
    (λ err w,
       (throw err,
        log_effects [console_error "[usePeerConnection] createOffer error"] w)).

(** [reconnect(isCreator, createOfferFn)]; [createOfferFn] tells whether
    a function was passed, and that function is [createOffer].  Its
    promise is not awaited: what it does to the world stays, how it ends
    is dropped. *)
Definition reconnect (isCreator createOfferFn : bool) : Async unit :=
  λ w,
    let w1 := match pcRef (peer w) with
              | Some pc =>
                  set_pcRef None
                    (log_effects
                       match close_ pc with
                       | normal _ => [RTCPeerConnection_close]
                       | throw _ =>
                           [RTCPeerConnection_close;
                            console_warn "[usePeerConnection] Error closing peer connection:"]
                       end w)
              | None => w
              end in
    match localStreamRef (media w1) with
    | Some _ =>
        match initPeerConnection w1 with
        | (normal _, w2) =>
            if isCreator && createOfferFn then (normal tt, (createOffer w2).2)
            else (normal tt, w2)
        | (throw err, w2) => (throw err, w2)
        end
    | None => (normal tt, w1)
    end.

(** [pc.onicecandidate] *)
Definition onicecandidate (candidate : option string) (w : World) : World :=
  match candidate with
  | Some c => sendSignal {| type := "ice-candidate"; payload := c |} w
  | None => w
  end.

(** [pc.onconnectionstatechange]: records the state, tells the
    orchestrator, and resets the retry counter on [connected]. *)
Definition onconnectionstatechange (state : string) (w : World) : World :=
  let w1 := set_peer {| pcRef := pcRef (peer w);
                        connectionState := state;
                        peerReconnectAttemptsRef := peerReconnectAttemptsRef (peer w);
                        reconnectTimeoutRef := reconnectTimeoutRef (peer w);
                        remoteVideoRef := remoteVideoRef (peer w) |} w in
  let w2 := handlePeerConnectionStateChange state w1 in
  if decide (state = "connected") then
    set_peer {| pcRef := pcRef (peer w2);
                connectionState := connectionState (peer w2);
                peerReconnectAttemptsRef := 0;
                reconnectTimeoutRef := reconnectTimeoutRef (peer w2);
                remoteVideoRef := remoteVideoRef (peer w2) |} w2
  else w2.

(** *** useRoomConnection: the signal listener *)

(** [handleSignal({ type, payload })] of the orchestrator: it makes sure
    there is a peer connection, then hands over to the hook. *)
Definition room_handleSignal (data : SignalData) : Async unit :=
  let* _ := initPeerConnection in handleSignal data.

(** *** Events on the whole client *)

Definition set_channel (c : Channel) (w : World) : World :=
  {| roomId := roomId w; isCreator := isCreator w; media := media w;
     peer := peer w; channel := c; room := room w; env := env w |}.

Definition on_channel (f : Channel → Env → Channel * Env) (w : World) : World :=
  let '(c, e) := f (channel w) (env w) in set_env e (set_channel c w).

Inductive Event :=
| socket_connected
| socket_disconnected (reason : string)
| socket_reconnect_attempt (attemptNumber : nat)
| socket_reconnected
| monitor_fired
| timeout_fired (id : positive)
| peer_state_changed (state : string)
| onReconnect_called (isCreator createOfferFn : bool)
| endCall_called.

(** What an event does.  A timeout that fires is no longer pending; the
    reconnection timeout runs [onReconnect], a separate event here, and
    so is whatever the [onConnect] callback of the channel goes on to
    do. *)
Definition handle (ev : Event) (w : World) : World :=
  match ev with
  | socket_connected => on_channel (λ c e, let '(_, c', e') := on_connect c e in (c', e')) w
  | socket_disconnected reason => on_channel (on_disconnect reason) w
  | socket_reconnect_attempt n => set_channel (on_reconnect_attempt n (channel w)) w
  | socket_reconnected => on_channel on_reconnect w
  | monitor_fired => on_channel monitor_tick w
  | timeout_fired id => set_env (clearTimeout id (env w)) w
  | peer_state_changed state => onconnectionstatechange state w
  | onReconnect_called isCreator createOfferFn => (reconnect isCreator createOfferFn w).2
  | endCall_called => endCall w
  end.

Definition handle_all (evs : list Event) (w : World) : World :=
  foldl (λ w ev, handle ev w) w evs.

(** The timer discipline of the client: ids are handed out in
    increasing order, no two pending timers share an id, the monitor
    interval is owned by [reconnectIntervalRef], the reconnection
    timeout by [reconnectTimeoutRef], and the peer retry counter is
    within its budget. *)
Record disciplined (w : World) : Prop := {
  d_fresh : fresh_ids (env w);
  d_nodup : NoDup (timer_id <$> timers (env w));
  d_monitor : owns is_monitor (reconnectIntervalRef (channel w)) (env w);
  d_reconnect : owns is_onReconnect (reconnectTimeoutRef (peer w)) (env w);
  d_budget : (peerReconnectAttemptsRef (peer w) ≤ MAX_RECONNECT_ATTEMPTS)%nat
}.

(** The pending timers of one kind. *)
Definition pending (kind : Task → bool) (w : World) : list Timer :=
  filter (λ t, kind (task t) = true) (timers (env w)).

(** [w'] differs from [w] in nothing that concerns timers: same pending
    timers and next id, same channel, same reconnection ref and
    counter. *)
Definition quiet (w w' : World) : Prop :=
  timers (env w') = timers (env w) ∧
  next_timer (env w') = next_timer (env w) ∧
  channel w' = channel w ∧
  reconnectTimeoutRef (peer w') = reconnectTimeoutRef (peer w) ∧
  peerReconnectAttemptsRef (peer w') = peerReconnectAttemptsRef (peer w).

(** [socketRef.current && socketRef.current.connected] *)
Definition online (w : World) : bool :=
  match socketRef (channel w) with
  | Some socket => connected socket
  | None => false
  end.

End MoreHooks.

(** A peer connection on which every call succeeds. *)
Definition accepting : RTCPeerConnection :=
  {| PC := unit;
     new_RTCPeerConnection := normal tt;
     addTracks := λ pc _, (pc, normal tt);
     createOffer_ := λ pc, (pc, normal "offer-sdp");
     createAnswer_ := λ pc, (pc, normal "answer-sdp");
     setLocalDescription := λ pc _, (pc, normal tt);
     setRemoteDescription := λ pc _, (pc, normal tt);
     addIceCandidate := λ pc _, (pc, normal tt);
     localDescription := λ _, "local-sdp";
     close_ := λ _, normal tt |}.

(** A browser whose [RTCPeerConnection] constructor throws. *)
Definition unsupported : RTCPeerConnection :=
  {| PC := unit;
     new_RTCPeerConnection := throw "ReferenceError";
     addTracks := λ pc _, (pc, normal tt);
     createOffer_ := λ pc, (pc, normal "offer-sdp");
     createAnswer_ := λ pc, (pc, normal "answer-sdp");
     setLocalDescription := λ pc _, (pc, normal tt);
     setRemoteDescription := λ pc _, (pc, normal tt);
     addIceCandidate := λ pc _, (pc, normal tt);
     localDescription := λ _, "local-sdp";
     close_ := λ _, normal tt |}.

(** A client that has its media and a connected socket but no peer
    connection yet. *)
Definition waiting (B : RTCPeerConnection) (socket_connected : bool) : @World B :=
  {| roomId := "r1";
     isCreator := false;
     media := {| localStreamRef := Some ["audio"; "video"];
                 localVideoRef := Some {| srcObject := Some ["audio"; "video"] |};
                 muted := false; videoOff := false; mediaError := None |};
     peer := {| pcRef := None;
                connectionState := "new";
                peerReconnectAttemptsRef := 0;
                reconnectTimeoutRef := None;
                remoteVideoRef := Some {| srcObject := None |} |};
     channel := {| socketRef := Some {| connected := socket_connected |};
                   isConnected := socket_connected;
                   socketError := None;
                   socketReconnecting := false;
                   socketRetryCount := 0;
                   socketReconnectAttemptsRef := 0;
                   reconnectIntervalRef := None;
                   connectionTimeoutRef := None |};
     room := {| status := "connecting"; error := None;
                reconnecting := false; retryCount := 0 |};
     env := no_timers |}.

(** The reports of a [joinRoom] run to its caller. *)
Definition reports (l : list Action) : nat :=
  length (omap (λ a, match a with
                     | do_onError _ | do_onSuccess => Some a
                     | _ => None
                     end) l).

Definition create_requests (l : list Action) : nat :=
  length (omap (λ a, match a with
                     | do_emit event roomId =>
                         if decide (event = "create-room") then Some roomId else None
                     | _ => None
                     end) l).

End Client.

(** ** Properties of the signaling server *)

Module RelayFacts.

Import Relay.
#[local] Open Scope string_scope.

(** *** The adapter, seen through [sockets_in] *)

Lemma sockets_in_add (a : gmap string (gset string)) room id r :
  sockets_in (adapter_add room id a) r =
  if decide (room = r) then sockets_in a room ∪ {[id]} else sockets_in a r.
Proof.
  unfold adapter_add, sockets_in. case_decide as Hr.
  - subst. by rewrite lookup_insert_eq.
  - by rewrite lookup_insert_ne.
Qed.

Lemma sockets_in_del (a : gmap string (gset string)) room id r :
  sockets_in (adapter_del room id a) r =
  if decide (room = r) then sockets_in a room ∖ {[id]} else sockets_in a r.
Proof.
  unfold adapter_del, sockets_in.
  destruct (decide (room = r)) as [<-|Hr];
    destruct (a !! room) as [s|] eqn:Hs; simpl.
  - destruct (decide (s ∖ {[id]} = ∅)) as [He|He].
    + rewrite lookup_delete_eq. simpl. by rewrite He.
    + by rewrite lookup_insert_eq.
  - rewrite Hs. simpl. set_solver.
  - destruct (decide (s ∖ {[id]} = ∅)) as [He|He].
    + by rewrite lookup_delete_ne.
    + by rewrite lookup_insert_ne.
  - done.
Qed.

Lemma sockets_in_delAll (a : gmap string (gset string)) id r :
  sockets_in (adapter_delAll id a) r = sockets_in a r ∖ {[id]}.
Proof.
  unfold adapter_delAll, sockets_in. rewrite lookup_omap.
  destruct (a !! r) as [s|]; simpl; [|set_solver].
  case_decide as He; simpl; [by rewrite He | done].
Qed.

Lemma elem_of_broadcast a id room msg to m :
  Emit to m ∈ broadcast a id room msg ↔
  to = sockets_in a room ∖ sockets_in a id ∧ m = msg ∧ to ≠ ∅.
Proof.
  unfold broadcast. case_decide as He.
  - split; [by intros ?%elem_of_nil | intros (-> & _ & ?); done].
  - rewrite list_elem_of_singleton. split.
    + intros [= -> ->]. done.
    + intros (-> & -> & _). done.
Qed.

Lemma notified_broadcast a id room msg m :
  notified m msg (broadcast a id room msg) ↔
  m ∈ sockets_in a room ∧ m ∉ sockets_in a id.
Proof.
  unfold notified. split.
  - intros (to & Hin & Hm). apply elem_of_broadcast in Hin as (-> & _ & _).
    set_solver.
  - intros [Hm Hne]. exists (sockets_in a room ∖ sockets_in a id).
    split; [|set_solver]. apply elem_of_broadcast. set_solver.
Qed.

Lemma length_broadcast a id room msg : (length (broadcast a id room msg) ≤ 1)%nat.
Proof. unfold broadcast. case_decide; simpl; lia. Qed.

Lemma broadcast_message a id room msg o :
  o ∈ broadcast a id room msg → ∃ to, o = Emit to msg.
Proof.
  unfold broadcast. case_decide; [by intros ?%elem_of_nil|].
  intros ->%list_elem_of_singleton. eauto.
Qed.

Lemma get_undefined m roomId :
  get m roomId = undefined ↔ m !! roomId = None ∧ roomId ∉ Object_prototype_names.
Proof.
  unfold get. destruct (m !! roomId); [naive_solver|].
  case_bool_decide; naive_solver.
Qed.

Lemma get_SetObject m roomId s :
  get m roomId = SetObject s ↔ m !! roomId = Some s.
Proof.
  unfold get. destruct (m !! roomId); [naive_solver|].
  case_bool_decide; naive_solver.
Qed.

Lemma get_inherited m roomId :
  get m roomId = inherited ↔ m !! roomId = None ∧ roomId ∈ Object_prototype_names.
Proof.
  unfold get. destruct (m !! roomId); [naive_solver|].
  case_bool_decide; naive_solver.
Qed.

(** *** Preservation of the invariants *)

Lemma size_add_le (room : gset string) (id : string) :
  (size room ≤ size (room ∪ {[id]}) ≤ size room + 1)%nat.
Proof.
  split; [apply subseteq_size; set_solver|].
  rewrite size_union_alt.
  assert (size ({[id]} ∖ room : gset string) ≤ 1)%nat; [|lia].
  rewrite <- (size_singleton (C := gset string) id).
  apply subseteq_size. set_solver.
Qed.

Lemma size_remove_le (room : gset string) (id : string) :
  (size (room ∖ {[id]}) ≤ size room)%nat.
Proof. apply subseteq_size. set_solver. Qed.

Lemma size_zero (room : gset string) : size room = 0%nat ↔ room = ∅.
Proof. rewrite size_empty_iff. by unfold_leibniz. Qed.

Lemma invariant_initial : invariant initial.
Proof.
  split; simpl; intros r; unfold sockets_in; rewrite ?lookup_empty;
    try done; set_solver.
Qed.

Lemma invariant_connection st id :
  invariant st → id ∉ sockets st → invariant (connection st id).
Proof.
  intros [Hs Hj Ha Hc Ho] Hid. split; simpl.
  - done.
  - intros r m Hm. rewrite sockets_in_add. specialize (Hj r m Hm).
    case_decide; subst; set_solver.
  - intros r. rewrite sockets_in_add. specialize (Ha r).
    case_decide; subst; set_solver.
  - intros r m Hm. specialize (Hc r m Hm). set_solver.
  - done.
Qed.

Lemma invariant_create_room st id roomId cb st' out :
  invariant st → id ∈ sockets st →
  create_room st id roomId cb = Return st' out → invariant st'.
Proof.
  intros Hinv Hid. unfold create_room.
  destruct (get (rooms st) roomId) eqn:Hget; intros [= <- <-]; try done.
  apply get_undefined in Hget as [Hnone Hown].
  destruct Hinv as [Hs Hj Ha Hc Ho]. split; simpl.
  - intros r m. rewrite lookup_insert. case_decide; subst.
    + intros [= <-]. rewrite size_singleton. lia.
    + apply Hs.
  - intros r m. rewrite lookup_insert, sockets_in_add.
    case_decide; subst; [intros [= <-]; set_solver | apply Hj].
  - intros r. rewrite lookup_insert, sockets_in_add. specialize (Ha r).
    case_decide; subst; [|done]. rewrite Hnone in Ha. simpl in *. set_solver.
  - intros r m. rewrite lookup_insert.
    case_decide; subst; [intros [= <-]; set_solver | apply Hc].
  - intros r m. rewrite lookup_insert. case_decide; subst; [done | apply Ho].
Qed.

Lemma invariant_join_room st id roomId cb st' out :
  invariant st → id ∈ sockets st →
  join_room st id roomId cb = Return st' out → invariant st'.
Proof.
  intros Hinv Hid. unfold join_room.
  destruct (get (rooms st) roomId) as [|room|] eqn:Hget; [| |done].
  { by intros [= <- <-]. }
  apply get_SetObject in Hget.
  case_decide as Hfull; intros [= <- <-]; [done|].
  destruct Hinv as [Hs Hj Ha Hc Ho]. split; simpl.
  - intros r m. rewrite lookup_insert. case_decide; subst; [|apply Hs].
    intros [= <-]. pose proof (size_add_le room id).
    pose proof (Hs _ _ Hget). lia.
  - intros r m. rewrite lookup_insert, sockets_in_add.
    case_decide; subst; [|apply Hj].
    intros [= <-]. specialize (Hj _ _ Hget). set_solver.
  - intros r. rewrite lookup_insert, sockets_in_add. specialize (Ha r).
    case_decide; subst; [|done]. rewrite Hget in Ha. simpl in *. set_solver.
  - intros r m. rewrite lookup_insert. case_decide; subst; [|apply Hc].
    intros [= <-]. specialize (Hc _ _ Hget). set_solver.
  - intros r m. rewrite lookup_insert. case_decide; subst; [eauto | apply Ho].
Qed.

Lemma remaining_Some room id m :
  remaining room id = Some m ↔ m = room ∖ {[id]} ∧ m ≠ ∅.
Proof. unfold remaining. case_decide; naive_solver. Qed.

Lemma remaining_default room id : default ∅ (remaining room id) = room ∖ {[id]}.
Proof. unfold remaining. case_decide as He; simpl; by rewrite ?He. Qed.

(** What [leaveRoom] does when it returns. *)
Lemma leaveRoom_Return st id roomId st' out :
  leaveRoom st id roomId = Return st' out →
  (rooms st !! roomId = None ∧ st' = st ∧ out = []) ∨
  (∃ room, rooms st !! roomId = Some room ∧
     (∀ r, rooms st' !! r =
           if decide (roomId = r) then remaining room id else rooms st !! r) ∧
     adapter st' = adapter_del roomId id (adapter st) ∧
     sockets st' = sockets st ∧
     out = broadcast (adapter st') id roomId (peer_left id)).
Proof.
  unfold leaveRoom.
  destruct (get (rooms st) roomId) as [|room|] eqn:Hget; [| |done].
  - apply get_undefined in Hget as [Hnone _]. intros [= <- <-]. by left.
  - apply get_SetObject in Hget. intros [= <- <-]. right. exists room.
    simpl. split_and!; try done.
    intros r. unfold remaining.
    destruct (decide (size (room ∖ {[id]}) = 0%nat)) as [Hz|Hz].
    + apply size_zero in Hz as Hz'.
      destruct (decide (room ∖ {[id]} = ∅)); [|done].
      rewrite lookup_delete. by case_decide.
    + destruct (decide (room ∖ {[id]} = ∅)) as [He|He].
      { by apply size_zero in He. }
      rewrite lookup_insert. by case_decide.
Qed.

Lemma size_remaining (room m : gset string) id :
  (1 ≤ size room ≤ 2)%nat → remaining room id = Some m → (1 ≤ size m ≤ 2)%nat.
Proof.
  intros Hroom [-> Hne]%remaining_Some.
  pose proof (size_remove_le room id).
  assert (size (room ∖ {[id]}) ≠ 0%nat) by by rewrite size_zero. lia.
Qed.

Lemma invariant_leaveRoom st id roomId st' out :
  invariant st → leaveRoom st id roomId = Return st' out → invariant st'.
Proof.
  intros Hinv Hrun.
  apply leaveRoom_Return in Hrun
    as [(_ & -> & _)|(room & Hroom & Hlk & Had & Hso & _)]; [done|].
  destruct Hinv as [Hs Hj Ha Hc Ho]. split.
  - intros r m. rewrite Hlk. destruct (decide (roomId = r)) as [<-|]; [|apply Hs].
    apply size_remaining. eauto.
  - intros r m. rewrite Hlk, Had, sockets_in_del.
    destruct (decide (roomId = r)) as [<-|]; [|apply Hj].
    intros [-> _]%remaining_Some. specialize (Hj _ _ Hroom). set_solver.
  - intros r. rewrite Hlk, Had, Hso, sockets_in_del. specialize (Ha r).
    destruct (decide (roomId = r)) as [<-|]; [|done].
    rewrite Hroom in Ha. simpl in Ha. rewrite remaining_default. set_solver.
  - intros r m. rewrite Hlk, Hso.
    destruct (decide (roomId = r)) as [<-|]; [|apply Hc].
    intros [-> _]%remaining_Some. specialize (Hc _ _ Hroom). set_solver.
  - intros r m. rewrite Hlk.
    destruct (decide (roomId = r)) as [<-|]; [eauto | apply Ho].
Qed.

Lemma leaving_leaveRoom id st roomId st' out :
  leaving id st → leaveRoom st id roomId = Return st' out → leaving id st'.
Proof.
  intros Hlv Hrun.
  apply leaveRoom_Return in Hrun
    as [(_ & -> & _)|(room & Hroom & Hlk & Had & Hso & _)]; [done|].
  destruct Hlv as [Hs Hj Ha Hc Ho Hg]. split.
  - intros r m. rewrite Hlk. destruct (decide (roomId = r)) as [<-|]; [|apply Hs].
    apply size_remaining. eauto.
  - intros r m. rewrite Hlk, Had, sockets_in_del.
    destruct (decide (roomId = r)) as [<-|]; [|apply Hj].
    intros [-> _]%remaining_Some. specialize (Hj _ _ Hroom). set_solver.
  - intros r. rewrite Hlk, Had, Hso, sockets_in_del. specialize (Ha r).
    destruct (decide (roomId = r)) as [<-|]; [|done].
    rewrite Hroom in Ha. simpl in Ha. rewrite remaining_default. set_solver.
  - intros r m. rewrite Hlk, Hso.
    destruct (decide (roomId = r)) as [<-|]; [|apply Hc].
    intros [-> _]%remaining_Some. specialize (Hc _ _ Hroom). set_solver.
  - intros r m. rewrite Hlk.
    destruct (decide (roomId = r)) as [<-|]; [eauto | apply Ho].
  - by rewrite Hso.
Qed.

(** Entering the [disconnect] handler. *)
Lemma leaving_start st id :
  invariant st →
  leaving id {| rooms := rooms st;
                adapter := adapter_delAll id (adapter st);
                sockets := sockets st ∖ {[id]} |}.
Proof.
  intros [Hs Hj Ha Hc Ho]. split; simpl.
  - done.
  - intros r m Hm. rewrite sockets_in_delAll. specialize (Hj _ _ Hm). set_solver.
  - intros r. rewrite sockets_in_delAll. specialize (Ha r). set_solver.
  - intros r m Hm. specialize (Hc _ _ Hm). set_solver.
  - done.
  - set_solver.
Qed.

(** Leaving the [disconnect] handler, once no stored room lists [id]. *)
Lemma leaving_done st id :
  leaving id st → (∀ r m, rooms st !! r = Some m → id ∉ m) → invariant st.
Proof.
  intros [Hs Hj Ha Hc Ho Hg] Hno. split.
  - done.
  - intros r m Hm. specialize (Hj _ _ Hm). specialize (Hno _ _ Hm). set_solver.
  - intros r. specialize (Ha r). set_solver.
  - intros r m Hm. specialize (Hc _ _ Hm). specialize (Hno _ _ Hm). set_solver.
  - done.
Qed.

(** The loop keeps [leaving]; a room that still lists [id] afterwards was
    not among the keys visited and is as it was before the loop. *)
Lemma disconnect_loop_Return id keys :
  ∀ st out st' out',
    disconnect_loop keys st id out = Return st' out' →
    leaving id st →
    leaving id st' ∧
    ∀ r m, rooms st' !! r = Some m → id ∈ m →
          (r ∉ keys) ∧ rooms st !! r = Some m.
Proof.
  induction keys as [|rid keys IH]; intros st out st' out'; simpl.
  - intros [= <- <-] Hlv. split; [done|]. intros r m Hm _. split; [|done].
    apply not_elem_of_nil.
  - destruct (get (rooms st) rid) as [|room|] eqn:Hget; [done| |done].
    apply get_SetObject in Hget.
    case_decide as Hin.
    + destruct (leaveRoom st id rid) as [st1 o|] eqn:Hleave; [|done].
      intros Hloop Hlv.
      pose proof (leaving_leaveRoom _ _ _ _ _ Hlv Hleave) as Hlv1.
      destruct (IH _ _ _ _ Hloop Hlv1) as [Hlv' Hrest]. split; [done|].
      intros r m Hm Hid. destruct (Hrest _ _ Hm Hid) as [Hnk Hm1].
      apply leaveRoom_Return in Hleave
        as [(Hnone & _)|(room1 & Hroom1 & Hlk & _)]; [congruence|].
      rewrite Hlk in Hm1. destruct (decide (rid = r)) as [<-|Hr].
      * apply remaining_Some in Hm1 as [-> _]. set_solver.
      * split; [|done]. rewrite not_elem_of_cons. done.
    + intros Hloop Hlv. destruct (IH _ _ _ _ Hloop Hlv) as [Hlv' Hrest].
      split; [done|]. intros r m Hm Hid.
      destruct (Hrest _ _ Hm Hid) as [Hnk Hm1]. split; [|done].
      rewrite not_elem_of_cons. split; [|done]. intros ->. congruence.
Qed.

Lemma invariant_disconnect st id keys st' out :
  invariant st → is_Object_keys keys (rooms st) →
  disconnect keys st id = Return st' out → invariant st'.
Proof.
  intros Hinv Hkeys Hrun. unfold disconnect in Hrun.
  apply disconnect_loop_Return in Hrun as [Hlv Hrest];
    [|by apply leaving_start].
  apply (leaving_done _ id); [done|].
  intros r m Hm Hid. destruct (Hrest _ _ Hm Hid) as [Hnk Hm0]. simpl in Hm0.
  apply Hnk. rewrite Hkeys. apply elem_of_elements, elem_of_dom. eauto.
Qed.

Lemma invariant_step st out st' : invariant st → step st out st' → invariant st'.
Proof.
  intros Hinv Hstep. destruct Hstep.
  - by apply invariant_connection.
  - by eapply invariant_create_room.
  - by eapply invariant_join_room.
  - unfold on_signal in *. by simplify_eq.
  - by eapply invariant_leaveRoom.
  - by eapply invariant_disconnect.
Qed.

Lemma reachable_invariant st : reachable st → invariant st.
Proof.
  induction 1 as [|st out st' _ IH Hstep];
    [apply invariant_initial | by eapply invariant_step].
Qed.

Lemma reachable_two_connected : reachable two_connected.
Proof.
  unfold two_connected.
  eapply reachable_step with (out := []);
    [eapply reachable_step with (out := []); [apply reachable_initial|]|];
    apply step_connection; vm_compute; set_solver.
Qed.

Lemma reachable_room_created : reachable room_created.
Proof.
  eapply reachable_step; [apply reachable_two_connected|].
  eapply (step_create_room _ "A" "r1" true); [vm_compute; set_solver|].
  vm_compute. reflexivity.
Qed.

Lemma reachable_room_joined : reachable room_joined.
Proof.
  eapply reachable_step; [apply reachable_room_created|].
  eapply (step_join_room _ "B" "r1" true); [vm_compute; set_solver|].
  vm_compute. reflexivity.
Qed.

Example room_joined_members : rooms room_joined !! "r1" = Some {["A"; "B"]}.
Proof. vm_compute. reflexivity. Qed.

Example join_notifies_creator :
  output_of (join_room room_created "B" "r1" true) =
  [Ack "B" success; Emit {["A"]} (peer_joined "B")].
Proof. vm_compute. reflexivity. Qed.

Example third_member_refused :
  join_room room_joined "C" "r1" true =
  Return room_joined [Ack "C" (failure ROOM_FULL)].
Proof. vm_compute. reflexivity. Qed.

Lemma reachable_with_bystander : reachable with_bystander.
Proof.
  eapply reachable_step with (out := []); [apply reachable_room_joined|].
  apply step_connection. vm_compute. set_solver.
Qed.

(** *** The room table *)

(** C1. In every reachable state each room of the table has one or two
    members: never more than two, and never none.  [leaveRoom] itself
    takes the room out of the table in the call that removes its last
    member, so the state left behind by any handler has no empty room. *)
Theorem room_size_invariant st :
  reachable st →
  (∀ r m, rooms st !! r = Some m → size m = 1%nat ∨ size m = 2%nat) ∧
  (∀ id roomId room st' out,
     rooms st !! roomId = Some room →
     leaveRoom st id roomId = Return st' out →
     (room ∖ {[id]} = ∅ → rooms st' !! roomId = None) ∧
     (room ∖ {[id]} ≠ ∅ → rooms st' !! roomId = Some (room ∖ {[id]}))).
Proof.
  intros Hreach. apply reachable_invariant in Hreach as Hinv. split.
  - intros r m Hm. pose proof (inv_size _ Hinv _ _ Hm). lia.
  - intros id roomId room st' out Hroom Hrun.
    apply leaveRoom_Return in Hrun
      as [(Hnone & _)|(room1 & Hroom1 & Hlk & _)]; [congruence|].
    assert (room1 = room) as -> by congruence.
    rewrite Hlk. destruct (decide (roomId = roomId)); [|done].
    unfold remaining. case_decide; naive_solver.
Qed.

Lemma room_size_invariant_witness :
  reachable room_joined ∧
  ((∀ r m, rooms room_joined !! r = Some m → size m = 1%nat ∨ size m = 2%nat) ∧
   (∀ id roomId room st' out,
      rooms room_joined !! roomId = Some room →
      leaveRoom room_joined id roomId = Return st' out →
      (room ∖ {[id]} = ∅ → rooms st' !! roomId = None) ∧
      (room ∖ {[id]} ≠ ∅ → rooms st' !! roomId = Some (room ∖ {[id]})))).
Proof.
  split; [apply reachable_room_joined|].
  apply (room_size_invariant room_joined). apply reachable_room_joined.
Defined.

(** *** create-room *)

(** For a room id that is not a member name of [Object.prototype],
    [create-room] refuses an id that is in the table, whoever created
    it, and otherwise stores the room with the caller as only member. *)
Lemma create_room_own_key st id roomId cb :
  roomId ∉ Object_prototype_names →
  match rooms st !! roomId with
  | Some _ =>
      create_room st id roomId cb =
      Return st (ack cb id (failure ROOM_ALREADY_EXISTS))
  | None =>
      ∃ st', create_room st id roomId cb = Return st' (ack cb id success) ∧
             rooms st' = <[roomId := {[id]}]> (rooms st)
  end.
Proof.
  intros Hown. unfold create_room, get.
  destruct (rooms st !! roomId); [done|].
  rewrite bool_decide_eq_false_2 by done. eauto.
Qed.

(** X6.  A second [create-room] for the same id is refused, from any
    socket, and changes nothing. *)
Lemma create_room_twice st id id' roomId cb cb' st' out :
  create_room st id roomId cb = Return st' out →
  create_room st' id' roomId cb' =
  Return st' (ack cb' id' (failure ROOM_ALREADY_EXISTS)).
Proof.
  unfold create_room at 1.
  destruct (get (rooms st) roomId) eqn:Hget; intros [= <- <-];
    unfold create_room.
  - unfold get. simpl. by rewrite lookup_insert_eq.
  - by rewrite Hget.
  - by rewrite Hget.
Qed.

(** C3 (code defect).  No room ["constructor"] is in the table, yet
    [create-room] answers ROOM_ALREADY_EXISTS and stores nothing:
    [rooms["constructor"]] is the inherited [Object] function. *)
Theorem create_room_inherited_key :
  rooms two_connected !! "constructor" = None ∧
  create_room two_connected "A" "constructor" true =
  Return two_connected [Ack "A" (failure ROOM_ALREADY_EXISTS)].
Proof. split; vm_compute; reflexivity. Qed.

(** *** join-room *)

(** X7.  For a room id that is not a member name of [Object.prototype],
    in a reachable state: [join-room] answers ROOM_NOT_FOUND when the id
    is not in the table, ROOM_FULL when the room has two members, and
    otherwise adds the socket, answers ok and broadcasts [peer-joined]
    with the joiner's id.  Another member of the room receives it if
    and only if it is not in the socket.io room named by the joiner's
    id. *)
Lemma join_room_own_key st id roomId cb :
  reachable st →
  roomId ∉ Object_prototype_names →
  match rooms st !! roomId with
  | None =>
      join_room st id roomId cb = Return st (ack cb id (failure ROOM_NOT_FOUND))
  | Some room =>
      if decide (size room = 2%nat) then
        join_room st id roomId cb = Return st (ack cb id (failure ROOM_FULL))
      else
        ∃ st' notifications,
          join_room st id roomId cb =
            Return st' (ack cb id success ++ notifications) ∧
          rooms st' = <[roomId := room ∪ {[id]}]> (rooms st) ∧
          (∀ o, o ∈ notifications → ∃ to, o = Emit to (peer_joined id)) ∧
          (∀ m, m ∈ room → m ≠ id →
             notified m (peer_joined id) notifications ↔
             m ∉ sockets_in (adapter st) id)
  end.
Proof.
  intros Hreach Hown. apply reachable_invariant in Hreach as Hinv.
  unfold join_room, get.
  destruct (rooms st !! roomId) as [room|] eqn:Hroom.
  - pose proof (inv_size _ Hinv _ _ Hroom).
    destruct (decide (size room = 2%nat)); destruct (decide (2 ≤ size room)%nat);
      try lia; [done|].
    eexists _, _. split_and!; [done..| |].
    + intros o Ho. by eapply broadcast_message.
    + intros m Hm Hne. rewrite notified_broadcast, !sockets_in_add.
      destruct (decide (roomId = roomId)); [|done].
      pose proof (inv_joined _ Hinv _ _ Hroom).
      destruct (decide (roomId = id)) as [->|]; set_solver.
  - by rewrite bool_decide_eq_false_2.
Qed.

(** C2 (code defect).  No room ["constructor"] is in the table, yet
    [join-room] does not answer ROOM_NOT_FOUND: the inherited [Object]
    function is truthy, has no [size] and no [add], and the handler
    raises a TypeError before it answers. *)
Theorem join_room_inherited_key :
  rooms two_connected !! "constructor" = None ∧
  join_room two_connected "A" "constructor" true = TypeError.
Proof. split; vm_compute; reflexivity. Qed.

(** *** leave-room *)

Lemma adapter_del_twice room id (a : gmap string (gset string)) :
  adapter_del room id (adapter_del room id a) = adapter_del room id a.
Proof.
  unfold adapter_del. destruct (a !! room) as [s|] eqn:Hs; [|by rewrite Hs].
  destruct (decide (s ∖ {[id]} = ∅)) as [He|He].
  - by rewrite lookup_delete_eq.
  - rewrite lookup_insert_eq.
    assert (s ∖ {[id]} ∖ {[id]} = s ∖ {[id]}) as -> by set_solver.
    destruct (decide (s ∖ {[id]} = ∅)); [done|].
    by rewrite insert_insert_eq.
Qed.

(** X8.  In a reachable state a second [leaveRoom] for the same socket
    and room leaves the table, the socket.io rooms and the connected
    sockets exactly as the first one left them. *)
Lemma leaveRoom_twice_state st id roomId st1 out1 :
  reachable st →
  leaveRoom st id roomId = Return st1 out1 →
  ∃ out2, leaveRoom st1 id roomId = Return st1 out2.
Proof.
  intros Hinv%reachable_invariant. unfold leaveRoom at 1.
  destruct (get (rooms st) roomId) as [|room|] eqn:Hget; [| |done].
  - intros [= <- <-]. unfold leaveRoom. rewrite Hget. eauto.
  - intros [= <- <-]. apply get_SetObject in Hget.
    pose proof (inv_own _ Hinv _ _ Hget) as Hown.
    unfold leaveRoom, get. simpl.
    pose proof (adapter_del_twice roomId id (adapter st)) as Had.
    destruct (decide (size (room ∖ {[id]}) = 0%nat)) as [Hz|Hz].
    + rewrite lookup_delete_eq, bool_decide_eq_false_2 by done. eauto.
    + rewrite lookup_insert_eq.
      assert (room ∖ {[id]} ∖ {[id]} = room ∖ {[id]}) as -> by set_solver.
      destruct (decide (size (room ∖ {[id]}) = 0%nat)); [done|].
      rewrite insert_insert_eq, Had. eauto.
Qed.

(** [leaveRoom] changes nothing and sends nothing for a room id that is
    neither in the table nor inherited. *)
Lemma leaveRoom_unknown_room st id roomId :
  rooms st !! roomId = None → roomId ∉ Object_prototype_names →
  leaveRoom st id roomId = Return st [].
Proof.
  intros Hnone Hown. unfold leaveRoom, get.
  by rewrite Hnone, bool_decide_eq_false_2.
Qed.

(** C6 (code defect).  [A] and [B] share room [r1].  The first
    [leave-room] of [A] tells [B] that [A] left; a second one tells [B]
    again, so two calls are observably not one call.  And [leave-room]
    from [C], which never was a member, is not a no-op: [A] and [B] are
    both told that [C] left. *)
Theorem leave_room_repeats_notification :
  let once := leave_room room_joined "A" "r1" in
  let twice := leave_room (state_of once) "A" "r1" in
  output_of once = [Emit {["B"]} (peer_left "A")] ∧
  twice = Return (state_of once) [Emit {["B"]} (peer_left "A")] ∧
  (output_of once ++ output_of twice)%list ≠ output_of once ∧
  rooms with_bystander !! "r1" = Some {["A"; "B"]} ∧
  leave_room with_bystander "C" "r1" =
    Return with_bystander [Emit {["A"; "B"]} (peer_left "C")].
Proof. vm_compute. split_and!; try reflexivity. discriminate. Qed.

(** *** disconnect *)

Example disconnect_notifies_peer :
  disconnect ["r1"] room_joined "B" =
  Return (state_of (disconnect ["r1"] room_joined "B"))
         [Emit {["A"]} (peer_left "B")] ∧
  rooms (state_of (disconnect ["r1"] room_joined "B")) !! "r1" = Some {["A"]}.
Proof. vm_compute. split; reflexivity. Qed.

Example disconnect_of_last_member_evicts :
  rooms (state_of (disconnect ["r1"]
                     (state_of (disconnect ["r1"] room_joined "B")) "A"))
  = ∅.
Proof. vm_compute. reflexivity. Qed.

(** In a reachable state the [disconnect] handler runs to its end. *)
Lemma disconnect_loop_returns id keys :
  ∀ st out,
    NoDup keys → (∀ k, k ∈ keys → is_Some (rooms st !! k)) →
    ∃ st' out', disconnect_loop keys st id out = Return st' out'.
Proof.
  induction keys as [|rid keys IH]; intros st out Hnd Hkeys; simpl; [eauto|].
  apply NoDup_cons in Hnd as [Hrid Hnd].
  destruct (Hkeys rid) as [room Hroom]; [apply list_elem_of_here|].
  assert (get (rooms st) rid = SetObject room) as -> by by apply get_SetObject.
  case_decide.
  - destruct (leaveRoom st id rid) as [st1 o|] eqn:Hleave.
    + apply IH; [done|]. intros k Hk.
      apply leaveRoom_Return in Hleave
        as [(_ & -> & _)|(room1 & _ & Hlk & _)].
      * apply Hkeys. by apply list_elem_of_further.
      * rewrite Hlk. destruct (decide (rid = k)) as [<-|]; [done|].
        apply Hkeys. by apply list_elem_of_further.
    + unfold leaveRoom in Hleave.
      assert (get (rooms st) rid = SetObject room) as Hget by by apply get_SetObject.
      by rewrite Hget in Hleave.
  - apply IH; [done|]. intros k Hk. apply Hkeys. by apply list_elem_of_further.
Qed.

Lemma disconnect_returns st id keys :
  is_Object_keys keys (rooms st) →
  ∃ st' out, disconnect keys st id = Return st' out.
Proof.
  intros Hkeys. apply disconnect_loop_returns.
  - rewrite Hkeys. apply NoDup_elements.
  - intros k Hk. simpl. apply elem_of_dom. apply elem_of_elements. by rewrite <- Hkeys.
Qed.

(** *** signal *)

(** C4, as stated, fails: [B] is connected and in no room of the table,
    no room named by [B]'s socket id is in the table, and still a signal
    that [A] addresses to that id is delivered to [B]. *)
Lemma signal_reaches_socket_id_room :
  ¬ (∀ st id roomId type payload,
       reachable st → id ∈ sockets st → rooms st !! roomId = None →
       on_signal st id roomId type payload = Return st []).
Proof.
  intros Hclaim.
  specialize (Hclaim two_connected "A" "B" "offer" "sdp" reachable_two_connected).
  assert (on_signal two_connected "A" "B" "offer" "sdp" =
          Return two_connected [Emit {["B"]} (signal "A" "offer" "sdp")]) as Hrun
    by (vm_compute; reflexivity).
  rewrite Hrun in Hclaim.
  assert ("A" ∈ sockets two_connected) as HA by (vm_compute; set_solver).
  assert (rooms two_connected !! "B" = None) as HB by (vm_compute; reflexivity).
  specialize (Hclaim HA HB). discriminate.
Qed.

(** The two runs above, seen from [A] in room [r1] with [B].  In
    [shadowed], [B] sits in the socket.io room named ["A"] and gets
    nothing of what [A] sends.  In [unsheltered], [A] has left that room
    and gets its own signal back. *)
Example shadowed_member_is_skipped :
  reachable shadowed ∧
  rooms shadowed !! "r1" = Some {["A"; "B"]} ∧
  on_signal shadowed "A" "r1" "offer" "sdp" = Return shadowed [].
Proof.
  split; [|split; vm_compute; reflexivity].
  eapply reachable_step;
    [eapply reachable_step;
      [eapply reachable_step; [apply reachable_two_connected|]|]|].
  - apply (step_create_room _ "B" "A" true); [vm_compute; set_solver|reflexivity].
  - apply (step_create_room _ "A" "r1" true); [vm_compute; set_solver|].
    vm_compute. reflexivity.
  - apply (step_join_room _ "B" "r1" true); [vm_compute; set_solver|].
    vm_compute. reflexivity.
Qed.

Example unsheltered_sender_is_echoed :
  reachable unsheltered ∧
  rooms unsheltered !! "r1" = Some {["A"; "B"]} ∧
  on_signal unsheltered "A" "r1" "offer" "sdp" =
  Return unsheltered [Emit {["A"; "B"]} (signal "A" "offer" "sdp")].
Proof.
  split; [|split; vm_compute; reflexivity].
  eapply reachable_step;
    [eapply reachable_step;
      [eapply reachable_step;
        [eapply reachable_step; [apply reachable_two_connected|]|]|]|].
  - apply (step_create_room _ "A" "A" true); [vm_compute; set_solver|reflexivity].
  - apply (step_leave_room _ "A" "A"); [vm_compute; set_solver|].
    vm_compute. reflexivity.
  - apply (step_create_room _ "A" "r1" true); [vm_compute; set_solver|].
    vm_compute. reflexivity.
  - apply (step_join_room _ "B" "r1" true); [vm_compute; set_solver|].
    vm_compute. reflexivity.
Qed.

(** C4, amended.  The [signal] handler never throws, never changes the
    state and never reads the table: it makes one [socket.to(roomId)]
    broadcast, at most one message, a [signal] carrying the sender's id,
    the type and the payload as received.  Its recipients are exactly
    the sockets in the socket.io room named [roomId] that are not in the
    socket.io room named by the sender's id.  When [roomId] is in the
    table, a member of the room receives the signal if and only if it is
    not in the sender's id-room, and nobody else receives it except,
    possibly, the socket whose id is [roomId]; when the sender's id-room
    holds the sender alone, the members that receive it are exactly
    those other than the sender.  When [roomId] is not in the table,
    the only socket that can receive the signal is the one whose id is
    [roomId], and it does if and only if it is in its own id-room and
    not in the sender's. *)
Theorem signal_forwarding st id roomId type payload :
  reachable st →
  ∃ out,
    on_signal st id roomId type payload = Return st out ∧
    (∀ table,
       on_signal {| rooms := table; adapter := adapter st; sockets := sockets st |}
                 id roomId type payload =
       Return {| rooms := table; adapter := adapter st; sockets := sockets st |} out) ∧
    (length out ≤ 1)%nat ∧
    (∀ o, o ∈ out → ∃ to, o = Emit to (signal id type payload)) ∧
    (∀ m, notified m (signal id type payload) out ↔
          m ∈ sockets_in (adapter st) roomId ∧ m ∉ sockets_in (adapter st) id) ∧
    (∀ room, rooms st !! roomId = Some room →
       (∀ m, m ∈ room →
          notified m (signal id type payload) out ↔ m ∉ sockets_in (adapter st) id) ∧
       (∀ m, notified m (signal id type payload) out → m ∈ room ∨ m = roomId) ∧
       (sockets_in (adapter st) id = {[id]} →
        ∀ m, m ∈ room → notified m (signal id type payload) out ↔ m ≠ id)) ∧
    (rooms st !! roomId = None →
     ∀ m, notified m (signal id type payload) out ↔
          m = roomId ∧ roomId ∈ sockets_in (adapter st) roomId ∧
          roomId ∉ sockets_in (adapter st) id).
Proof.
  intros Hinv%reachable_invariant. unfold on_signal. eexists. split; [done|].
  pose proof (inv_adapter _ Hinv roomId) as Ha.
  split_and!.
  - done.
  - apply length_broadcast.
  - intros o Ho. by eapply broadcast_message.
  - intros m. apply notified_broadcast.
  - intros room Hroom. rewrite Hroom in Ha. simpl in Ha.
    pose proof (inv_joined _ Hinv _ _ Hroom) as Hj.
    split_and!.
    + intros m Hm. rewrite notified_broadcast. set_solver.
    + intros m. rewrite notified_broadcast. set_solver.
    + intros Hid m Hm. rewrite notified_broadcast, Hid. set_solver.
  - intros Hnone m. rewrite Hnone in Ha. simpl in Ha.
    rewrite notified_broadcast. split.
    + intros [Hm Hnot]. assert (m = roomId) as -> by set_solver. done.
    + intros (-> & Hin & Hnot). done.
Qed.

Lemma signal_forwarding_witness :
  reachable room_joined ∧
  rooms room_joined !! "r1" = Some {["A"; "B"]} ∧
  sockets_in (adapter room_joined) "B" = {["B"]} ∧
  (notified "A" (signal "B" "answer" "sdp")
     (output_of (on_signal room_joined "B" "r1" "answer" "sdp")) ↔ "A" ≠ "B").
Proof.
  assert (Hroom : rooms room_joined !! "r1" = Some {["A"; "B"]})
    by (vm_compute; reflexivity).
  assert (Hown : sockets_in (adapter room_joined) "B" = {["B"]})
    by (vm_compute; reflexivity).
  split; [apply reachable_room_joined|]. split; [exact Hroom|]. split; [exact Hown|].
  destruct (signal_forwarding room_joined "B" "r1" "answer" "sdp"
              reachable_room_joined)
    as (out & Hrun & _ & _ & _ & _ & Hstored & _).
  rewrite Hrun. simpl.
  destruct (Hstored _ Hroom) as (_ & _ & Halone).
  apply (Halone Hown). set_solver.
Defined.

End RelayFacts.

(** ** Properties of the client hooks *)

Module ClientFacts.

Import Client.
#[local] Open Scope string_scope.
#[local] Open Scope list_scope.

Section Hooks.

Context `{RTCPeerConnection}.

(** *** sendSignal *)

(** C10. While there is no socket, or the socket is not connected,
    [sendSignal] returns the world as it found it: nothing is emitted,
    nothing is stored for later, and nothing is thrown (the function has
    no way to fail). *)
Theorem sendSignal_offline (data : SignalData) (w : World) :
  (socketRef (channel w) = None ∨
   ∃ socket, socketRef (channel w) = Some socket ∧ connected socket = false) →
  sendSignal data w = w.
Proof.
  unfold sendSignal. intros [->|(socket & -> & ->)]; reflexivity.
Qed.

(** On a connected socket the signal is emitted, once, with the hook's
    room id. *)
Lemma sendSignal_online (data : SignalData) (w : World) socket :
  socketRef (channel w) = Some socket → connected socket = true →
  effects (env (sendSignal data w)) =
  effects (env w) ++ [socket_emit_signal (roomId w) (type data) (payload data)].
Proof. unfold sendSignal. intros -> ->. reflexivity. Qed.

(** *** attemptReconnection *)

(** C8. With the budget used up ([attempts >= MAX_RECONNECT_ATTEMPTS])
    [attemptReconnection] returns [false] and leaves the refs, the
    timers and the log alone.  Otherwise it returns [true], the counter
    is one higher, and the pending timers are the earlier ones (without
    the one [reconnectTimeoutRef] pointed at) followed by one new timer
    that calls [onReconnect] after
    [min(INITIAL_RECONNECT_DELAY * 2^(attempts-1), 16000)] ms. *)
Theorem attemptReconnection_spec (given : bool) (p : Peer) (e : Env) :
  if decide (MAX_RECONNECT_ATTEMPTS ≤ peerReconnectAttemptsRef p)%nat then
    attemptReconnection given p e = (false, p, e)
  else
    ∃ p' e',
      attemptReconnection given p e = (true, p', e') ∧
      peerReconnectAttemptsRef p' = S (peerReconnectAttemptsRef p) ∧
      reconnectTimeoutRef p' = Some (next_timer e) ∧
      pcRef p' = pcRef p ∧
      effects e' = effects e ∧
      timers e' =
        timers (clear_ref (reconnectTimeoutRef p) e) ++
        [{| timer_id := next_timer e;
            delay := Z.min (INITIAL_RECONNECT_DELAY *
                            2 ^ (Z.of_nat (peerReconnectAttemptsRef p') - 1))
                           16000;
            task := call_onReconnect given |}].
Proof.
  unfold attemptReconnection. case_decide; [done|].
  eexists _, _. split; [done|]. simpl.
  assert (Hn : ∀ r, next_timer (clear_ref r e) = next_timer e)
    by (by intros [?|]).
  rewrite !Hn. split_and!; try done. by destruct (reconnectTimeoutRef p).
Qed.

(** The delays of the five attempts the budget allows. *)
Lemma backoff_table :
  backoff <$> [1; 2; 3; 4; 5]%nat = [1000; 2000; 4000; 8000; 16000]%Z.
Proof. reflexivity. Qed.

(** *** handleIceCandidate, handleAnswer, handleOffer *)

(** C9. [handleIceCandidate] returns normally on every input and in
    every world, whatever the browser does.  Without a peer connection
    it logs a warning and changes nothing else; when [addIceCandidate]
    rejects, the rejection is logged as a warning and goes no further.
    [handleAnswer] and [handleOffer] rethrow the rejection of
    [setRemoteDescription]. *)
Theorem handleIceCandidate_swallows (candidate : string) (w : World) :
  (handleIceCandidate candidate w).1 = normal tt ∧
  (pcRef (peer w) = None →
   (handleIceCandidate candidate w).2 =
   log_effects [console_warn "[usePeerConnection] Peer connection not initialized"] w) ∧
  (∀ pc pc' err,
     pcRef (peer w) = Some pc → addIceCandidate pc candidate = (pc', throw err) →
     (handleIceCandidate candidate w).2 =
     log_effects [console_warn "[usePeerConnection] Error adding ICE candidate"]
                 (set_pcRef (Some pc') w)) ∧
  (∀ pc pc' err answer,
     pcRef (peer w) = Some pc → setRemoteDescription pc answer = (pc', throw err) →
     (handleAnswer answer w).1 = throw err) ∧
  (∀ pc pc' err offer,
     pcRef (peer w) = Some pc → setRemoteDescription pc offer = (pc', throw err) →
     (handleOffer offer w).1 = throw err).
Proof.
  split_and!.
  - unfold handleIceCandidate, try_catch, call, effect.
    destruct (pcRef (peer w)) as [pc|]; [|done].
    destruct (addIceCandidate pc candidate) as [pc' [[]|err]]; done.
  - unfold handleIceCandidate, try_catch, effect. by intros ->.
  - intros pc pc' err Hpc Hadd.
    unfold handleIceCandidate, try_catch, call, effect. by rewrite Hpc, Hadd.
  - intros pc pc' err answer Hpc Hset.
    unfold handleAnswer, try_catch, call. by rewrite Hpc, Hset.
  - intros pc pc' err offer Hpc Hset.
    unfold handleOffer, try_catch, bind, initPeerConnection, call.
    rewrite Hpc. simpl. by rewrite Hpc, Hset.
Qed.

(** *** endCall *)


(** A peer connection that fails while the peer retry budget is used up
    also leaves the status [disconnected], and nothing is scheduled. *)
Lemma exhausted_budget_settles_disconnected (w : World) :
  (MAX_RECONNECT_ATTEMPTS ≤ peerReconnectAttemptsRef (peer w))%nat →
  let w' := handlePeerConnectionStateChange "failed" w in
  status (room w') = "disconnected" ∧
  timers (env w') = timers (env w) ∧
  peer w' = peer w.
Proof.
  intros Hmax. unfold handlePeerConnectionStateChange.
  destruct (decide ("failed" = "connected")) as [|_]; [done|].
  destruct (decide ("failed" = "disconnected" ∨ "failed" = "failed")) as [_|Hn];
    [|naive_solver].
  simpl. destruct (isConnected (channel w)); [|done].
  unfold attemptReconnection. simpl. by case_decide.
Qed.

End Hooks.

(** *** joinRoom *)

Lemma join_requests_cons_emit roomId l :
  join_requests (do_emit "join-room" roomId :: l) = S (join_requests l).
Proof. reflexivity. Qed.

(** From attempt [attempt] on, at most [maxAttempts - attempt + 1]
    requests are sent, and the waits in between are
    [2000 * attempt], [2000 * (attempt + 1)], ... *)
Lemma rejoinRoom_bounds (c : Course) (roomId : string) (n : nat) :
  ∀ attempt maxAttempts,
    (maxAttempts - attempt)%nat = n →
    (join_requests (rejoinRoom c false roomId attempt maxAttempts) ≤ S n)%nat ∧
    delays (rejoinRoom c false roomId attempt maxAttempts)
      `prefix_of` ((λ k, 2000 * Z.of_nat k)%Z <$> seq attempt n).
Proof.
  induction n as [|n IH]; intros attempt maxAttempts Hn;
    rewrite rejoinRoom_equation_1;
    (destruct (connected_at c attempt); simpl;
     [|split; [unfold join_requests; simpl; lia | apply prefix_nil]]);
    rewrite join_requests_cons_emit;
    (destruct (join_reply c attempt) as [res|]; simpl;
     [|split; [unfold join_requests; simpl; lia | apply prefix_nil]]);
    (destruct (ok res); simpl;
     [split; [unfold join_requests; simpl; lia | apply prefix_nil]|]);
    (destruct (lt_dec attempt maxAttempts) as [Hlt|Hge]; simpl;
     [|split; [unfold join_requests; simpl; lia | apply prefix_nil]]);
    try lia;
    (case_bool_decide; simpl;
     [|split; [unfold join_requests; simpl; lia | apply prefix_nil]]).
  destruct (IH (S attempt) maxAttempts) as [Hreq Hdel]; [lia|].
  split.
  - change (join_requests (?a :: ?b :: ?l)) with (join_requests l). lia.
  - change (delays (?a :: do_setTimeout ?ms :: ?l)) with (ms :: delays l).
    by apply prefix_cons.
Qed.

(** C7.  A joiner ([isCreator] false) sends [join-room]; the run with
    the defaults [attempt = 1], [maxAttempts = 5] sends at most five
    requests, and the waits between them are 2000, 4000, 6000 and
    8000 ms, that is 2000 ms times the number of the attempt that just
    failed.  A failed attempt is retried only when fewer than
    [maxAttempts] attempts were made and the reason is ROOM_NOT_FOUND;
    any other failure (ROOM_FULL, say) ends the run at once with the
    error callback.  Five requests are sent when the room never
    appears. *)
Theorem join_retry_policy (c : Course) (roomId : string) :
  (join_requests (rejoinRoom c false roomId 1 5) ≤ 5)%nat ∧
  delays (rejoinRoom c false roomId 1 5) `prefix_of` [2000; 4000; 6000; 8000]%Z ∧
  (∀ attempt maxAttempts res,
     connected_at c attempt = true →
     join_reply c attempt = Some res →
     ok res = false →
     rejoinRoom c false roomId attempt maxAttempts =
     if decide ((attempt < maxAttempts)%nat ∧ reason res = Some "ROOM_NOT_FOUND")
     then
       [do_emit "join-room" roomId;
        do_setError (Some (waiting_for_room attempt maxAttempts));
        do_setTimeout (2000 * Z.of_nat attempt)]
       ++ rejoinRoom c false roomId (S attempt) maxAttempts
     else
       [do_emit "join-room" roomId;
        do_setError (Some (could_not_join res));
        do_onError (could_not_join res)]) ∧
  join_requests (rejoinRoom never_created false roomId 1 5) = 5%nat ∧
  join_requests (rejoinRoom room_is_full false roomId 1 5) = 1%nat.
Proof.
  split_and!.
  - by apply (rejoinRoom_bounds c roomId 4 1 5).
  - by apply (rejoinRoom_bounds c roomId 4 1 5).
  - intros attempt maxAttempts res Hconn Hreply Hok.
    rewrite rejoinRoom_equation_1, Hconn, Hreply, Hok. simpl.
    destruct (lt_dec attempt maxAttempts); try case_bool_decide; case_decide;
      naive_solver.
  - repeat (rewrite rejoinRoom_equation_1; simpl). reflexivity.
  - repeat (rewrite rejoinRoom_equation_1; simpl). reflexivity.
Qed.

Lemma join_retry_policy_witness :
  delays (rejoinRoom never_created false "r2" 1 5) = [2000; 4000; 6000; 8000]%Z ∧
  rejoinRoom room_is_full false "r2" 1 5 =
    [do_emit "join-room" "r2";
     do_setError (Some (could_not_join {| ok := false; reason := Some "ROOM_FULL" |}));
     do_onError (could_not_join {| ok := false; reason := Some "ROOM_FULL" |})].
Proof.
  destruct (join_retry_policy never_created "r2") as (_ & Hdelays & Hstep & _).
  destruct (join_retry_policy room_is_full "r2") as (_ & _ & Hfull & _).
  split.
  - repeat (rewrite (Hstep _ 5%nat {| ok := false; reason := Some "ROOM_NOT_FOUND" |});
            [|reflexivity..]; simpl).
    reflexivity.
  - rewrite (Hfull 1%nat 5%nat {| ok := false; reason := Some "ROOM_FULL" |});
      reflexivity.
Defined.

(** *** Concrete calls *)


Lemma sendSignal_offline_witness :
  (socketRef (channel (in_call false 0)) = None ∨
   ∃ socket, socketRef (channel (in_call false 0)) = Some socket ∧
             connected socket = false) ∧
  sendSignal {| type := "offer"; payload := "sdp" |} (in_call false 0) =
  in_call false 0.
Proof.
  assert (Hoff : socketRef (channel (in_call false 0)) = None ∨
                 ∃ socket, socketRef (channel (in_call false 0)) = Some socket ∧
                           connected socket = false).
  { right. exists {| connected := false |}. split; reflexivity. }
  split; [exact Hoff|].
  exact (sendSignal_offline {| type := "offer"; payload := "sdp" |}
           (in_call false 0) Hoff).
Defined.

Lemma attemptReconnection_spec_witness :
  attemptReconnection true (peer (in_call true 5)) (env (in_call true 5)) =
    (false, peer (in_call true 5), env (in_call true 5)) ∧
  ∃ p' e',
    attemptReconnection true (peer (in_call true 2)) (env (in_call true 2)) =
      (true, p', e') ∧
    peerReconnectAttemptsRef p' = 3%nat ∧
    timers e' =
      [{| timer_id := 1%positive; delay := 4000; task := call_onReconnect true |}].
Proof.
  split.
  - exact (attemptReconnection_spec true (peer (in_call true 5)) (env (in_call true 5))).
  - pose proof (attemptReconnection_spec true (peer (in_call true 2))
                  (env (in_call true 2))) as Hspec.
    change (if decide (MAX_RECONNECT_ATTEMPTS ≤ 2)%nat then ?a else ?b) with b in Hspec.
    destruct Hspec as (p' & e' & Heq & Hn & _ & _ & _ & Ht).
    exists p', e'. split_and!; [done..|]. rewrite Ht, Hn. reflexivity.
Defined.

Lemma handleIceCandidate_swallows_witness :
  (handleIceCandidate "candidate" (in_call true 0)).1 = normal tt ∧
  effects (env (handleIceCandidate "candidate" (in_call true 0)).2) =
    [console_warn "[usePeerConnection] Error adding ICE candidate"] ∧
  (handleAnswer "sdp" (in_call true 0)).1 = throw "InvalidStateError" ∧
  (handleOffer "sdp" (in_call true 0)).1 = throw "InvalidStateError".
Proof.
  destruct (handleIceCandidate_swallows "candidate" (in_call true 0))
    as (Hnormal & _ & Hlogged & Hanswer & Hoffer).
  split_and!.
  - exact Hnormal.
  - rewrite (Hlogged tt tt "OperationError"); reflexivity.
  - exact (Hanswer tt tt "InvalidStateError" "sdp" eq_refl eq_refl).
  - exact (Hoffer tt tt "InvalidStateError" "sdp" eq_refl eq_refl).
Defined.

End ClientFacts.

(** ** More on the signaling server *)

Module RelayMore.

Import Relay RelayFacts.
#[local] Open Scope string_scope.
#[local] Open Scope list_scope.

Lemma broadcast_ext (a a' : gmap string (gset string)) id room msg :
  (∀ r, sockets_in a r = sockets_in a' r) →
  broadcast a id room msg = broadcast a' id room msg.
Proof. unfold broadcast. intros Hsame. by rewrite !Hsame. Qed.

Lemma flat_map_agree {A B} (f g : A → list B) (l : list A) :
  (∀ x, x ∈ l → f x = g x) → flat_map f l = flat_map g l.
Proof.
  induction l as [|x l IH]; intros Hfg; simpl; [done|].
  rewrite Hfg, IH; [done| |apply list_elem_of_here].
  intros y Hy. apply Hfg. by apply list_elem_of_further.
Qed.

(** The loop of the [disconnect] handler, key by key: a visited room
    that lists [id] loses it (and is deleted when that empties it), the
    socket.io rooms stay as socket.io left them, and one [peer-left]
    broadcast goes out per visited room that listed [id]. *)
Lemma disconnect_loop_exact id keys :
  ∀ st out st' out',
    NoDup keys →
    (∀ r, id ∉ sockets_in (adapter st) r) →
    disconnect_loop keys st id out = Return st' out' →
    (∀ r, rooms st' !! r =
          if decide (r ∈ keys)
          then rooms st !! r ≫= (λ m, if decide (id ∈ m) then remaining m id else Some m)
          else rooms st !! r) ∧
    (∀ r, sockets_in (adapter st') r = sockets_in (adapter st) r) ∧
    sockets st' = sockets st ∧
    out' = out ++ flat_map (peer_left_for st id) keys.
Proof.
  induction keys as [|rid keys IH]; intros st out st' out' Hnd Hout; simpl.
  { intros [= <- <-].
    split_and!;
      first [ done
            | by rewrite app_nil_r
            | intros r; destruct (decide (r ∈ [])) as [Hin|]; [|done];
              by apply elem_of_nil in Hin ]. }
  apply NoDup_cons in Hnd as [Hrid Hnd].
  destruct (get (rooms st) rid) as [|room|] eqn:Hget; [done| |done].
  apply get_SetObject in Hget.
  unfold peer_left_for at 1. rewrite Hget.
  destruct (decide (id ∈ room)) as [Hin|Hin].
  - destruct (leaveRoom st id rid) as [st1 o|] eqn:Hleave; [|done].
    apply leaveRoom_Return in Hleave
      as [(Hnone & _)|(room1 & Hroom1 & Hlk & Had & Hso & Ho)]; [congruence|].
    assert (room1 = room) as -> by congruence.
    assert (Hsame : ∀ r, sockets_in (adapter st1) r = sockets_in (adapter st) r).
    { intros r. rewrite Had, sockets_in_del.
      destruct (decide (rid = r)) as [<-|]; [|done].
      specialize (Hout rid). set_solver. }
    intros Hloop.
    apply IH in Hloop as (Hrooms & Hadapter & Hsockets & Hout'); [|done|].
    2:{ intros r. rewrite Hsame. apply Hout. }
    split_and!.
    + intros r. rewrite Hrooms, !Hlk.
      destruct (decide (rid = r)) as [<-|Hne].
      * destruct (decide (rid ∈ keys)); [done|].
        destruct (decide (rid ∈ rid :: keys)) as [_|Hn];
          [|exfalso; apply Hn, list_elem_of_here].
        rewrite Hget. simpl. by destruct (decide (id ∈ room)).
      * destruct (decide (r ∈ keys)) as [Hr|Hr];
          destruct (decide (r ∈ rid :: keys)) as [Hr'|Hr']; try done.
        -- exfalso. apply Hr'. by apply list_elem_of_further.
        -- apply elem_of_cons in Hr' as [->|]; done.
    + intros r. by rewrite Hadapter, Hsame.
    + by rewrite Hsockets, Hso.
    + rewrite Hout', <- app_assoc. f_equal. f_equal.
      * rewrite Ho. by apply broadcast_ext.
      * apply flat_map_agree. intros k Hk. unfold peer_left_for.
        rewrite Hlk. destruct (decide (rid = k)) as [<-|]; [done|].
        destruct (rooms st !! k); [|done]. case_decide; [|done].
        by apply broadcast_ext.
  - intros Hloop. apply IH in Hloop as (Hrooms & Hadapter & Hsockets & Hout');
      [|done..].
    split_and!; try done.
    intros r. rewrite Hrooms.
    destruct (decide (rid = r)) as [<-|Hne].
    + destruct (decide (rid ∈ keys)); [done|].
      destruct (decide (rid ∈ rid :: keys)) as [_|Hn];
        [|exfalso; apply Hn, list_elem_of_here].
      rewrite Hget. simpl. by destruct (decide (id ∈ room)).
    + destruct (decide (r ∈ keys)) as [Hr|Hr];
        destruct (decide (r ∈ rid :: keys)) as [Hr'|Hr']; try done.
      * exfalso. apply Hr'. by apply list_elem_of_further.
      * apply elem_of_cons in Hr' as [->|]; done.
Qed.

Lemma invariant_sockets_in st r :
  invariant st → sockets_in (adapter st) r ⊆ sockets st.
Proof.
  intros Hinv. pose proof (inv_adapter _ Hinv r) as Ha.
  destruct (rooms st !! r) as [m|] eqn:Hm; simpl in Ha.
  - pose proof (inv_connected _ Hinv _ _ Hm). set_solver.
  - set_solver.
Qed.

Lemma remaining_of_nonmember (m : gset string) id :
  m ≠ ∅ → id ∉ m → remaining m id = Some m.
Proof.
  intros Hne Hid. apply remaining_Some. split; [set_solver|done].
Qed.

Lemma elem_of_flat_map {A B} (f : A → list B) (l : list A) (y : B) :
  y ∈ flat_map f l ↔ ∃ x, x ∈ l ∧ y ∈ f x.
Proof.
  rewrite list_elem_of_In, in_flat_map. split.
  - intros (x & Hx & Hy). exists x. by rewrite !list_elem_of_In.
  - intros (x & Hx & Hy). exists x. by rewrite <- !list_elem_of_In.
Qed.

Lemma is_Object_keys_elem keys (m : gmap string (gset string)) r :
  is_Object_keys keys m → r ∈ keys ↔ is_Some (m !! r).
Proof.
  unfold is_Object_keys. intros ->. by rewrite elem_of_elements, elem_of_dom.
Qed.

Lemma is_Object_keys_NoDup keys (m : gmap string (gset string)) :
  is_Object_keys keys m → NoDup keys.
Proof. unfold is_Object_keys. intros ->. apply NoDup_elements. Qed.

(** What the [disconnect] handler leaves, from a reachable state. *)
Lemma disconnect_exact st id keys st' out :
  reachable st → is_Object_keys keys (rooms st) →
  disconnect keys st id = Return st' out →
  (∀ r, rooms st' !! r = rooms st !! r ≫= (λ m, remaining m id)) ∧
  (∀ r, sockets_in (adapter st') r = sockets_in (adapter st) r ∖ {[id]}) ∧
  sockets st' = sockets st ∖ {[id]} ∧
  out = flat_map (peer_left_for (closing st id) id) keys.
Proof.
  intros Hinv%reachable_invariant Hkeys Hrun. unfold disconnect in Hrun.
  apply disconnect_loop_exact in Hrun as (Hrooms & Hadapter & Hsockets & Hout).
  - split_and!; try done.
    + intros r. rewrite Hrooms. simpl.
      destruct (decide (r ∈ keys)) as [Hr|Hr].
      * destruct (rooms st !! r) as [m|] eqn:Hm; [|done]. simpl.
        case_decide as Hin; [done|]. symmetry. apply remaining_of_nonmember; [|done].
        pose proof (inv_size _ Hinv _ _ Hm) as Hsz. intros ->.
        rewrite size_empty in Hsz. lia.
      * rewrite (is_Object_keys_elem _ _ _ Hkeys) in Hr.
        destruct (rooms st !! r); [|done]. exfalso. by apply Hr.
    + intros r. rewrite Hadapter. simpl. apply sockets_in_delAll.
  - by eapply is_Object_keys_NoDup.
  - intros r. simpl. rewrite sockets_in_delAll. set_solver.
Qed.

(** Everything the [disconnect] handler sends from a reachable state is a
    [peer-left] broadcast to connected sockets other than the one that
    left. *)
Lemma disconnect_emits st id keys st' out :
  reachable st → is_Object_keys keys (rooms st) →
  disconnect keys st id = Return st' out →
  ∀ o, o ∈ out →
    ∃ to, o = Emit to (peer_left id) ∧ (id ∉ to) ∧ to ≠ ∅ ∧ to ⊆ sockets st'.
Proof.
  intros Hreach Hkeys Hrun.
  pose proof (reachable_invariant _ Hreach) as Hinv.
  destruct (disconnect_exact _ _ _ _ _ Hreach Hkeys Hrun)
    as (_ & _ & Hsockets & ->).
  intros o (r & Hr & Ho)%elem_of_flat_map. unfold peer_left_for in Ho.
  simpl in Ho. destruct (rooms st !! r) as [room|]; [|by apply elem_of_nil in Ho].
  case_decide; [|by apply elem_of_nil in Ho].
  unfold broadcast in Ho. case_decide as Hne; [by apply elem_of_nil in Ho|].
  apply list_elem_of_singleton in Ho as ->. eexists. split; [done|].
  simpl in *. rewrite !sockets_in_delAll in *.
  split_and!; [set_solver|done|].
  rewrite Hsockets.
  pose proof (invariant_sockets_in st r Hinv). set_solver.
Qed.

(** X1.  When a socket disconnects in a reachable state the handler runs
    to its end; afterwards the socket is listed in no room, every room
    it was the last member of is gone from the table, every other room
    keeps its other members, and rooms it was not in are untouched. *)
Theorem disconnect_leaves_every_room st id keys :
  reachable st → is_Object_keys keys (rooms st) →
  ∃ st' out,
    disconnect keys st id = Return st' out ∧
    sockets st' = sockets st ∖ {[id]} ∧
    (∀ r m, rooms st' !! r = Some m → id ∉ m) ∧
    (∀ r room, rooms st !! r = Some room →
       rooms st' !! r = if decide (room ∖ {[id]} = ∅) then None
                        else Some (room ∖ {[id]})) ∧
    (∀ r, rooms st !! r = None → rooms st' !! r = None) ∧
    (∀ r room, rooms st !! r = Some room → id ∉ room →
       rooms st' !! r = Some room).
Proof.
  intros Hreach Hkeys.
  destruct (disconnect_returns st id keys Hkeys) as (st' & out & Hrun).
  exists st', out. split; [done|].
  pose proof (reachable_invariant _ Hreach) as Hinv.
  destruct (disconnect_exact _ _ _ _ _ Hreach Hkeys Hrun)
    as (Hrooms & _ & Hsockets & _).
  split_and!; [done|..].
  - intros r m. rewrite Hrooms. destruct (rooms st !! r) as [room|]; [|done].
    simpl. intros [-> _]%remaining_Some. set_solver.
  - intros r room Hroom. by rewrite Hrooms, Hroom.
  - intros r Hnone. by rewrite Hrooms, Hnone.
  - intros r room Hroom Hid. rewrite Hrooms, Hroom. simpl.
    apply remaining_of_nonmember; [|done].
    pose proof (inv_size _ Hinv _ _ Hroom) as Hsz. intros ->.
    rewrite size_empty in Hsz. lia.
Qed.

Lemma disconnect_leaves_every_room_witness :
  reachable room_joined ∧ is_Object_keys ["r1"] (rooms room_joined) ∧
  ∃ st' out,
    disconnect ["r1"] room_joined "B" = Return st' out ∧
    rooms st' !! "r1" = Some {["A"]}.
Proof.
  assert (Hkeys : is_Object_keys ["r1"] (rooms room_joined))
    by (vm_compute; reflexivity).
  split; [apply reachable_room_joined|]. split; [exact Hkeys|].
  destruct (disconnect_leaves_every_room room_joined "B" ["r1"]
              reachable_room_joined Hkeys)
    as (st' & out & Hrun & _ & _ & Hroom & _).
  exists st', out. split; [exact Hrun|].
  rewrite (Hroom "r1" {["A"; "B"]}); vm_compute; reflexivity.
Defined.

(** X2.  When a socket disconnects, another member of a room it was in
    is told that it left, unless that member is in the socket.io room
    named by the leaver's id: a socket in that room is told nothing.
    All the handler sends are [peer-left] broadcasts naming the leaver,
    never to the leaver itself and only to connected sockets, and at
    most one per room the leaver was in. *)
Theorem disconnect_notifies_peers st id keys st' out :
  reachable st → is_Object_keys keys (rooms st) →
  disconnect keys st id = Return st' out →
  (∀ r room m, rooms st !! r = Some room → id ∈ room → m ∈ room → m ≠ id →
     m ∉ sockets_in (adapter st) id → notified m (peer_left id) out) ∧
  (∀ m, m ∈ sockets_in (adapter st) id → ¬ notified m (peer_left id) out) ∧
  (∀ o, o ∈ out →
     ∃ to, o = Emit to (peer_left id) ∧ (id ∉ to) ∧ to ≠ ∅ ∧ to ⊆ sockets st') ∧
  (length out ≤
   length (filter (λ rid, id ∈ default ∅ (rooms st !! rid)) keys))%nat.
Proof.
  intros Hreach Hkeys Hrun.
  pose proof (reachable_invariant _ Hreach) as Hinv.
  pose proof (disconnect_emits _ _ _ _ _ Hreach Hkeys Hrun) as Hemits.
  destruct (disconnect_exact _ _ _ _ _ Hreach Hkeys Hrun)
    as (_ & _ & Hsockets & ->).
  split_and!.
  - intros r room m Hroom Hid Hm Hne Hout.
    pose proof (inv_joined _ Hinv _ _ Hroom) as Hj.
    exists (sockets_in (adapter (closing st id)) r
            ∖ sockets_in (adapter (closing st id)) id).
    split.
    + apply elem_of_flat_map. exists r. split.
      * apply (is_Object_keys_elem _ _ _ Hkeys). eauto.
      * unfold peer_left_for. simpl. rewrite Hroom.
        destruct (decide (id ∈ room)); [|done].
        apply elem_of_broadcast. split_and!; [done..|].
        apply (non_empty_inhabited_L m).
        rewrite !sockets_in_delAll, !elem_of_difference, elem_of_singleton.
        split; [split; [by apply Hj|done]|]. by intros [? _].
    + simpl. rewrite !sockets_in_delAll, !elem_of_difference, elem_of_singleton.
      split; [split; [by apply Hj|done]|]. by intros [? _].
  - intros m Hm (to & (r & _ & Ho)%elem_of_flat_map & Hto).
    unfold peer_left_for in Ho. simpl in Ho.
    destruct (rooms st !! r) as [room|]; [|by apply elem_of_nil in Ho].
    case_decide; [|by apply elem_of_nil in Ho].
    apply elem_of_broadcast in Ho as (-> & _ & _).
    rewrite !sockets_in_delAll in Hto. set_solver.
  - exact Hemits.
  - clear Hrun Hkeys Hemits. induction keys as [|k keys IH]; simpl; [done|].
    rewrite length_app, filter_cons. unfold peer_left_for at 1. simpl.
    destruct (rooms st !! k) as [room|]; simpl.
    + destruct (decide (id ∈ room)); simpl; [|lia].
      pose proof (length_broadcast (adapter_delAll id (adapter st)) id k (peer_left id)).
      lia.
    + destruct (decide (id ∈ ∅)) as [Hin|]; [set_solver|]. simpl. lia.
Qed.

Lemma disconnect_notifies_peers_witness :
  reachable shadowed ∧ is_Object_keys ["A"; "r1"] (rooms shadowed) ∧
  rooms shadowed !! "r1" = Some {["A"; "B"]} ∧
  "B" ∈ sockets_in (adapter shadowed) "A" ∧
  ¬ notified "B" (peer_left "A") (output_of (disconnect ["A"; "r1"] shadowed "A")).
Proof.
  assert (Hkeys : is_Object_keys ["A"; "r1"] (rooms shadowed))
    by (vm_compute; reflexivity).
  assert (Hin : "B" ∈ sockets_in (adapter shadowed) "A")
    by (vm_compute; set_solver).
  split; [apply shadowed_member_is_skipped|]. split; [exact Hkeys|].
  split; [vm_compute; reflexivity|]. split; [exact Hin|].
  assert (Hrun : disconnect ["A"; "r1"] shadowed "A" =
                 Return (state_of (disconnect ["A"; "r1"] shadowed "A"))
                        (output_of (disconnect ["A"; "r1"] shadowed "A")))
    by (vm_compute; reflexivity).
  destruct (disconnect_notifies_peers shadowed "A" ["A"; "r1"] _ _
              (proj1 shadowed_member_is_skipped) Hkeys Hrun) as (_ & Hskip & _).
  exact (Hskip "B" Hin).
Defined.

(** X3.  In every reachable state the table and the socket.io rooms
    agree: the members of a stored room are connected sockets and are in
    the socket.io room of the same name; that room holds nobody else
    except, possibly, the socket whose id is the room's name; no stored
    room id is a member name of [Object.prototype]; and a socket.io room
    whose name is not in the table holds at most the socket of that
    name. *)
Theorem table_matches_rooms st r :
  reachable st →
  sockets_in (adapter st) r ⊆ sockets st ∧
  match rooms st !! r with
  | Some m =>
      m ⊆ sockets st ∧
      m ⊆ sockets_in (adapter st) r ∧
      sockets_in (adapter st) r ⊆ m ∪ {[r]} ∧
      r ∉ Object_prototype_names
  | None => sockets_in (adapter st) r ⊆ {[r]}
  end.
Proof.
  intros Hinv%reachable_invariant. split; [by apply invariant_sockets_in|].
  pose proof (inv_adapter _ Hinv r) as Ha.
  destruct (rooms st !! r) as [m|] eqn:Hm; simpl in Ha.
  - split_and!.
    + by eapply inv_connected.
    + by eapply inv_joined.
    + set_solver.
    + by eapply inv_own.
  - set_solver.
Qed.

Lemma table_matches_rooms_witness :
  reachable room_joined ∧
  sockets_in (adapter room_joined) "r1" ⊆ {["A"; "B"]} ∪ {["r1"]}.
Proof.
  split; [apply reachable_room_joined|].
  pose proof (table_matches_rooms room_joined "r1" reachable_room_joined)
    as [_ Hroom].
  change (rooms room_joined !! "r1") with (Some ({["A"; "B"]} : gset string)) in Hroom.
  apply Hroom.
Defined.

Lemma Emit_not_in_ack cb id res to msg : Emit to msg ∉ ack cb id res.
Proof.
  unfold ack. destruct cb; [|apply not_elem_of_nil].
  rewrite list_elem_of_singleton. discriminate.
Qed.



Lemma notified_after_ack cb id res l m msg :
  notified m msg (ack cb id res ++ l) ↔ notified m msg l.
Proof.
  unfold notified. split; intros (to & Hin & Hm); exists to; (split; [|done]).
  - apply elem_of_app in Hin as [Hin|Hin]; [by apply Emit_not_in_ack in Hin|done].
  - apply elem_of_app. by right.
Qed.

Lemma apart_room_joined : apart room_joined.
Proof.
  intros s Hs.
  assert (sockets room_joined = {["A"; "B"]}) as Heq by (vm_compute; reflexivity).
  rewrite Heq in Hs.
  assert (s = "A" ∨ s = "B") as [-> | ->] by set_solver; vm_compute; reflexivity.
Qed.

(** X5.  While room ids and socket ids are kept apart (every connected
    socket is alone in the socket.io room of its own id) the broadcasts
    follow the table: what a connected socket sends with [signal],
    [join-room] on a room that is not full, or [leave-room], for a
    stored room whose id is no connected socket's id, reaches exactly
    the members of that room other than the sender.  The separation is
    kept by the connection of a socket whose id is no stored room id, by
    [create-room], [join-room] and [leave-room] for a room id that is no
    connected socket's id, and by [disconnect]. *)
Theorem ids_stay_apart st :
  reachable st → apart st →
  (∀ id roomId room,
     id ∈ sockets st → roomId ∉ sockets st → rooms st !! roomId = Some room →
     (∀ type payload m,
        notified m (signal id type payload)
                 (output_of (on_signal st id roomId type payload)) ↔
        m ∈ room ∧ m ≠ id) ∧
     (∀ cb m,
        size room ≠ 2%nat →
        notified m (peer_joined id) (output_of (join_room st id roomId cb)) ↔
        m ∈ room ∧ m ≠ id) ∧
     (∀ m,
        notified m (peer_left id) (output_of (leave_room st id roomId)) ↔
        m ∈ room ∧ m ≠ id)) ∧
  (∀ id, id ∉ sockets st → rooms st !! id = None → apart (connection st id)) ∧
  (∀ id roomId cb st' out,
     roomId ∉ sockets st →
     create_room st id roomId cb = Return st' out → apart st') ∧
  (∀ id roomId cb st' out,
     roomId ∉ sockets st →
     join_room st id roomId cb = Return st' out → apart st') ∧
  (∀ id roomId st' out,
     roomId ∉ sockets st →
     leave_room st id roomId = Return st' out → apart st') ∧
  (∀ id keys st' out,
     is_Object_keys keys (rooms st) →
     disconnect keys st id = Return st' out → apart st').
Proof.
  intros Hreach Hapart. pose proof (reachable_invariant _ Hreach) as Hinv.
  split_and!.
  - intros id roomId room Hid Hrid Hroom.
    assert (Hne : roomId ≠ id) by (intros ->; done).
    assert (Hmembers : sockets_in (adapter st) roomId = room).
    { pose proof (inv_adapter _ Hinv roomId) as Ha. rewrite Hroom in Ha.
      pose proof (inv_joined _ Hinv _ _ Hroom). simpl in Ha. set_solver. }
    pose proof (Hapart id Hid) as Hown.
    split_and!.
    + intros type payload m. simpl.
      rewrite notified_broadcast, Hmembers, Hown. set_solver.
    + intros cb m Hsize. unfold join_room, get. rewrite Hroom.
      pose proof (inv_size _ Hinv _ _ Hroom).
      destruct (decide (2 ≤ size room)%nat); [lia|]. simpl.
      rewrite notified_after_ack, notified_broadcast, !sockets_in_add.
      destruct (decide (roomId = roomId)); [|done].
      destruct (decide (roomId = id)); [done|].
      rewrite Hmembers, Hown. set_solver.
    + intros m. unfold leave_room, leaveRoom, get. rewrite Hroom. simpl.
      rewrite notified_broadcast, !sockets_in_del.
      destruct (decide (roomId = roomId)); [|done].
      destruct (decide (roomId = id)); [done|].
      rewrite Hmembers, Hown. set_solver.
  - intros id Hid Hnone s Hs. simpl in *. rewrite sockets_in_add.
    destruct (decide (id = s)) as [<-|Hne].
    + pose proof (inv_adapter _ Hinv id) as Ha. rewrite Hnone in Ha.
      simpl in Ha. set_solver.
    + apply Hapart. set_solver.
  - intros id roomId cb st' out Hrid Hrun. unfold create_room in Hrun.
    destruct (get (rooms st) roomId); simplify_eq; try done.
    intros s Hs. simpl in *. rewrite sockets_in_add.
    destruct (decide (roomId = s)) as [<-|]; [done|]. by apply Hapart.
  - intros id roomId cb st' out Hrid Hrun. unfold join_room in Hrun.
    destruct (get (rooms st) roomId) as [|room|]; [| |done].
    { by simplify_eq. }
    case_decide; simplify_eq; [done|].
    intros s Hs. simpl in *. rewrite sockets_in_add.
    destruct (decide (roomId = s)) as [<-|]; [done|]. by apply Hapart.
  - intros id roomId st' out Hrid Hrun.
    apply leaveRoom_Return in Hrun
      as [(_ & -> & _)|(room & _ & _ & Had & Hso & _)]; [done|].
    intros s Hs. rewrite Hso in Hs. rewrite Had, sockets_in_del.
    destruct (decide (roomId = s)) as [<-|]; [done|]. by apply Hapart.
  - intros id keys st' out Hkeys Hrun.
    destruct (disconnect_exact _ _ _ _ _ Hreach Hkeys Hrun)
      as (_ & Hadapter & Hsockets & _).
    intros s Hs. rewrite Hsockets in Hs. rewrite Hadapter, Hapart; set_solver.
Qed.

Lemma ids_stay_apart_witness :
  reachable room_joined ∧ apart room_joined ∧
  (notified "A" (signal "B" "answer" "sdp")
     (output_of (on_signal room_joined "B" "r1" "answer" "sdp")) ↔
   "A" ∈ ({["A"; "B"]} : gset string) ∧ "A" ≠ "B").
Proof.
  split; [apply reachable_room_joined|]. split; [apply apart_room_joined|].
  destruct (ids_stay_apart room_joined reachable_room_joined apart_room_joined)
    as (Hout & _).
  destruct (Hout "B" "r1" {["A"; "B"]}) as (Hsignal & _).
  - vm_compute. set_solver.
  - vm_compute. set_solver.
  - vm_compute. reflexivity.
  - apply Hsignal.
Defined.

(** The three facts below are instances of lemmas proved with the room
    table above. *)

Lemma create_room_twice_witness :
  create_room two_connected "A" "r1" true = Return room_created [Ack "A" success] ∧
  create_room room_created "B" "r1" true =
  Return room_created [Ack "B" (failure ROOM_ALREADY_EXISTS)].
Proof.
  assert (Hfirst : create_room two_connected "A" "r1" true =
                   Return room_created [Ack "A" success])
    by (vm_compute; reflexivity).
  split; [exact Hfirst|].
  exact (create_room_twice two_connected "A" "B" "r1" true true _ _ Hfirst).
Defined.

Lemma join_room_own_key_witness :
  reachable room_joined ∧ ("r1" ∉ Object_prototype_names) ∧
  join_room room_joined "C" "r1" true =
  Return room_joined [Ack "C" (failure ROOM_FULL)].
Proof.
  assert (Hown : "r1" ∉ Object_prototype_names).
  { intros Hin. vm_compute in Hin. repeat (apply elem_of_cons in Hin as [Hin|Hin]; [discriminate|]).
    by apply elem_of_nil in Hin. }
  split; [apply reachable_room_joined|]. split; [exact Hown|].
  pose proof (join_room_own_key room_joined "C" "r1" true
                reachable_room_joined Hown) as Hspec.
  change (rooms room_joined !! "r1") with (Some ({["A"; "B"]} : gset string)) in Hspec.
  exact Hspec.
Defined.

Lemma leaveRoom_twice_state_witness :
  reachable room_joined ∧
  ∃ out2, leaveRoom (state_of (leaveRoom room_joined "A" "r1")) "A" "r1" =
          Return (state_of (leaveRoom room_joined "A" "r1")) out2.
Proof.
  split; [apply reachable_room_joined|].
  apply (leaveRoom_twice_state room_joined "A" "r1" _
           [Emit {["B"]} (peer_left "A")] reachable_room_joined).
  vm_compute. reflexivity.
Defined.

End RelayMore.

(** ** More on the client hooks *)

Module ClientMore.

Import Client.
#[local] Open Scope string_scope.
#[local] Open Scope list_scope.

(** *** The backoff of attemptReconnection *)

(** X9.  From the first attempt on, the delay before a peer reconnection
    is at least [INITIAL_RECONNECT_DELAY] and at most 16000 ms, never
    shrinks from one attempt to the next, doubles while it is below the
    ceiling, and stays at the ceiling from the fifth attempt on. *)
Theorem backoff_bounds (n : nat) :
  (1 ≤ n)%nat →
  (INITIAL_RECONNECT_DELAY ≤ backoff n ≤ 16000)%Z ∧
  (backoff n ≤ backoff (S n))%Z ∧
  ((n < 5)%nat → backoff (S n) = (2 * backoff n)%Z) ∧
  ((5 ≤ n)%nat → backoff n = 16000%Z).
Proof.
  intros Hn. unfold backoff, INITIAL_RECONNECT_DELAY.
  assert (Hpow : ∀ k : nat, (1 ≤ 2 ^ Z.of_nat k)%Z).
  { intros k. apply (Z.pow_le_mono_r 2 0 (Z.of_nat k)); lia. }
  assert (Hstep : ∀ k : nat, (2 ^ Z.of_nat (S k) = 2 * 2 ^ Z.of_nat k)%Z).
  { intros k. rewrite Nat2Z.inj_succ, Z.pow_succ_r; lia. }
  destruct n as [|k]; [lia|].
  replace (Z.of_nat (S k) - 1)%Z with (Z.of_nat k) by lia.
  replace (Z.of_nat (S (S k)) - 1)%Z with (Z.of_nat (S k)) by lia.
  rewrite Hstep. pose proof (Hpow k) as Hk.
  split_and!; try lia.
  - intros Hlt.
    destruct k as [|[|[|[|k]]]]; [reflexivity..|lia].
  - intros Hge.
    assert (16 ≤ 2 ^ Z.of_nat k)%Z; [|lia].
    change 16%Z with (2 ^ 4)%Z. apply Z.pow_le_mono_r; lia.
Qed.

Lemma backoff_bounds_witness :
  (1 ≤ 3)%nat ∧ backoff 3 = 4000%Z ∧ backoff 4 = (2 * backoff 3)%Z.
Proof.
  assert (Hn : (1 ≤ 3)%nat) by lia.
  destruct (backoff_bounds 3 Hn) as (_ & _ & Hdouble & _).
  split; [exact Hn|]. split; [reflexivity|]. apply Hdouble. lia.
Defined.

Section Hooks.

Context `{RTCPeerConnection}.

(** *** endCall *)

(** X10.  A second [endCall] changes nothing: the world, the log and the
    timers are as the first call left them.  (The Room page calls it
    from the End Call button and again when the page unmounts.) *)
Theorem endCall_twice (w : World) : endCall (endCall w) = endCall w.
Proof.
  unfold endCall, stopStream, close, disconnect. simpl.
  destruct (localVideoRef (media w)), (remoteVideoRef (peer w)); reflexivity.
Qed.

(** *** close and attemptReconnection *)

(** X11.  [close] gives the retry budget back: whatever the counter was,
    the next [attemptReconnection] is accepted and is scheduled after
    [INITIAL_RECONNECT_DELAY]. *)
Theorem close_restores_budget (given : bool) (p : Peer) (e : Env) :
  let '(p1, e1) := close p e in
  ∃ p2 e2,
    attemptReconnection given p1 e1 = (true, p2, e2) ∧
    peerReconnectAttemptsRef p2 = 1%nat ∧
    timers e2 =
      timers e1 ++ [{| timer_id := next_timer e; delay := INITIAL_RECONNECT_DELAY;
                       task := call_onReconnect given |}].
Proof.
  unfold close, attemptReconnection. simpl.
  eexists _, _. split; [reflexivity|]. split; [reflexivity|]. simpl.
  assert (Hn : ∀ r (e0 : Env), next_timer (clear_ref r e0) = next_timer e0)
    by (by intros [?|]).
  destruct (pcRef p) as [pc|]; [destruct (close_ pc)|]; simpl; by rewrite Hn.
Qed.

End Hooks.

(** *** The timer discipline *)

Lemma next_timer_clear_ref ref (e : Env) :
  next_timer (clear_ref ref e) = next_timer e.
Proof. by destruct ref. Qed.

Lemma elem_of_clearTimeout t id (e : Env) :
  t ∈ timers (clearTimeout id e) ↔ timer_id t ≠ id ∧ t ∈ timers e.
Proof. unfold clearTimeout. simpl. by rewrite list_elem_of_filter. Qed.

Lemma elem_of_clear_ref t ref (e : Env) :
  t ∈ timers (clear_ref ref e) ↔ ref ≠ Some (timer_id t) ∧ t ∈ timers e.
Proof.
  destruct ref as [id|]; unfold clear_ref; [|naive_solver].
  rewrite elem_of_clearTimeout. naive_solver.
Qed.

Lemma elem_of_setTimeout t task ms (e : Env) :
  t ∈ timers (setTimeout task ms e) ↔
  t ∈ timers e ∨ t = {| timer_id := next_timer e; delay := ms; task := task |}.
Proof.
  unfold setTimeout. simpl. rewrite elem_of_app, list_elem_of_singleton. done.
Qed.

Lemma NoDup_ids_filter (P : Timer → Prop) `{∀ t, Decision (P t)} (l : list Timer) :
  NoDup (timer_id <$> l) → NoDup (timer_id <$> filter P l).
Proof.
  induction l as [|t l IH]; simpl; [done|].
  rewrite NoDup_cons. intros [Ht Hl]. rewrite filter_cons.
  destruct (decide (P t)); [|by apply IH].
  simpl. apply NoDup_cons. split; [|by apply IH].
  intros (t' & Hid & Hin)%list_elem_of_fmap. apply Ht.
  apply list_elem_of_fmap. exists t'. split; [done|].
  by apply list_elem_of_filter in Hin as [_ ?].
Qed.

Lemma fresh_clear_ref ref e : fresh_ids e → fresh_ids (clear_ref ref e).
Proof.
  intros Hf t [_ Ht]%elem_of_clear_ref. rewrite next_timer_clear_ref. by apply Hf.
Qed.

Lemma NoDup_clear_ref ref (e : Env) :
  NoDup (timer_id <$> timers e) → NoDup (timer_id <$> timers (clear_ref ref e)).
Proof.
  destruct ref as [id|]; simpl; [|done]. apply NoDup_ids_filter.
Qed.

Lemma owns_clear_ref kind ref ref' e : owns kind ref e → owns kind ref (clear_ref ref' e).
Proof. intros Ho t [_ Ht]%elem_of_clear_ref. by apply Ho. Qed.

(** Clearing the owner's ref leaves no timer of its kind. *)
Lemma owns_cleared kind ref ref' e : owns kind ref e → owns kind ref' (clear_ref ref e).
Proof.
  intros Ho t [Hne Ht]%elem_of_clear_ref Hk. destruct Hne. by apply Ho.
Qed.

Lemma fresh_setTimeout task ms e : fresh_ids e → fresh_ids (setTimeout task ms e).
Proof.
  intros Hf t [Ht| ->]%elem_of_setTimeout; simpl; [|lia].
  specialize (Hf t Ht). lia.
Qed.

Lemma NoDup_setTimeout task ms (e : Env) :
  fresh_ids e → NoDup (timer_id <$> timers e) →
  NoDup (timer_id <$> timers (setTimeout task ms e)).
Proof.
  intros Hf Hnd. unfold setTimeout. simpl. rewrite fmap_app. apply NoDup_app.
  split_and!; [done| |apply NoDup_singleton].
  intros id (t & -> & Ht)%list_elem_of_fmap. simpl.
  rewrite list_elem_of_singleton. specialize (Hf t Ht). lia.
Qed.

(** A new timer of another kind does not disturb an owner. *)
Lemma owns_setTimeout_other kind task ms ref e :
  kind task = false → owns kind ref e → owns kind ref (setTimeout task ms e).
Proof.
  intros Hk Ho t [Ht| ->]%elem_of_setTimeout; [by apply Ho|]. simpl. congruence.
Qed.

(** The owner's new timer, set once the old one is cleared. *)
Lemma owns_setTimeout_own kind task ms ref e :
  owns kind ref e →
  owns kind (Some (next_timer (clear_ref ref e)))
       (setTimeout task ms (clear_ref ref e)).
Proof.
  intros Ho t [Ht| ->]%elem_of_setTimeout Hk; [|done].
  pose proof (owns_cleared kind ref None e Ho t Ht Hk). discriminate.
Qed.

Lemma owns_log kind ref new e : owns kind ref e → owns kind ref (log new e).
Proof. done. Qed.

Lemma owns_clearTimeout kind ref id e : owns kind ref e → owns kind ref (clearTimeout id e).
Proof. intros Ho t [_ Ht]%elem_of_clearTimeout. by apply Ho. Qed.

(** An owner has at most one timer pending. *)
Lemma owns_at_most_one kind ref (e : Env) :
  owns kind ref e → NoDup (timer_id <$> timers e) →
  (length (filter (λ t, kind (task t) = true) (timers e)) ≤ 1)%nat.
Proof.
  unfold owns. generalize (timers e). intros l Ho Hnd.
  induction l as [|t l IH]; simpl; [lia|].
  apply NoDup_cons in Hnd as [Ht Hnd]. rewrite filter_cons.
  assert (Ho' : ∀ t', t' ∈ l → kind (task t') = true → ref = Some (timer_id t')).
  { intros t' Ht'. apply Ho. by apply list_elem_of_further. }
  destruct (decide (kind (task t) = true)) as [Hk|Hk]; [|by apply IH].
  simpl. assert (filter (λ t0, kind (task t0) = true) l = []) as ->; [|simpl; lia].
  destruct (filter (λ t0, kind (task t0) = true) l) as [|t' l'] eqn:Hfilter; [done|].
  assert (Hin : t' ∈ filter (λ t0, kind (task t0) = true) l)
    by (rewrite Hfilter; apply list_elem_of_here).
  apply list_elem_of_filter in Hin as [Hk' Hin]. exfalso. apply Ht.
  apply list_elem_of_fmap. exists t'. split; [|done].
  pose proof (Ho t (list_elem_of_here _ _) Hk) as H1.
  pose proof (Ho' t' Hin Hk') as H2. congruence.
Qed.

Section Discipline.

Context `{RTCPeerConnection}.

Lemma quiet_refl (w : World) : quiet w w.
Proof. by repeat split. Qed.

Lemma quiet_trans (w1 w2 w3 : World) : quiet w1 w2 → quiet w2 w3 → quiet w1 w3.
Proof.
  intros (?&?&?&?&?) (?&?&?&?&?). repeat split; congruence.
Qed.

Lemma quiet_log_effects new (w : World) : quiet w (log_effects new w).
Proof. by repeat split. Qed.

Lemma quiet_set_pcRef pc (w : World) : quiet w (set_pcRef pc w).
Proof. by repeat split. Qed.

Lemma quiet_sendSignal data (w : World) : quiet w (sendSignal data w).
Proof.
  unfold sendSignal. destruct (socketRef (channel w)) as [socket|];
    [destruct (connected socket)|]; by repeat split.
Qed.

Lemma quiet_call {A} (method : PC → PC * completion A) (w : World) :
  quiet w (call method w).2.
Proof.
  unfold call. destruct (pcRef (peer w)) as [pc|]; [|apply quiet_refl].
  destruct (method pc). apply quiet_set_pcRef.
Qed.

Lemma quiet_initPeerConnection (w : World) : quiet w (initPeerConnection w).2.
Proof.
  unfold initPeerConnection. destruct (pcRef (peer w)); [apply quiet_refl|].
  destruct new_RTCPeerConnection as [pc|]; [|apply quiet_refl].
  destruct (localStreamRef (media w)) as [stream|]; [|apply quiet_set_pcRef].
  destruct (addTracks pc stream). apply quiet_set_pcRef.
Qed.

Lemma quiet_bind {A B} (m : Async A) (k : A → Async B) :
  (∀ w, quiet w (m w).2) → (∀ a w, quiet w (k a w).2) →
  ∀ w, quiet w (bind m k w).2.
Proof.
  intros Hm Hk w. unfold bind. specialize (Hm w).
  destruct (m w) as [[a|err] w1]; [|done].
  eapply quiet_trans; [exact Hm|apply Hk].
Qed.

Lemma quiet_try_catch {A} (m : Async A) (handler : string → Async A) :
  (∀ w, quiet w (m w).2) → (∀ err w, quiet w (handler err w).2) →
  ∀ w, quiet w (try_catch m handler w).2.
Proof.
  intros Hm Hh w. unfold try_catch. specialize (Hm w).
  destruct (m w) as [[a|err] w1]; [done|].
  eapply quiet_trans; [exact Hm|apply Hh].
Qed.

Lemma quiet_createOffer (w : World) : quiet w (createOffer w).2.
Proof.
  revert w. unfold createOffer. apply quiet_try_catch.
  - apply quiet_bind.
    { intros w. destruct (pcRef (peer w)); [apply quiet_refl|].
      eapply quiet_trans; [apply quiet_log_effects|apply quiet_initPeerConnection]. }
    intros _. apply quiet_bind; [intros w; apply quiet_call|].
    intros offer. apply quiet_bind; [intros w; apply quiet_call|].
    intros _. apply quiet_bind; [intros w; apply quiet_call|].
    intros description w. apply quiet_sendSignal.
  - intros err w. apply quiet_log_effects.
Qed.

Lemma quiet_reconnect isCreator createOfferFn (w : World) :
  quiet w (reconnect isCreator createOfferFn w).2.
Proof.
  unfold reconnect.
  set (w1 := match pcRef (peer w) with Some pc => _ | None => w end).
  assert (Hw1 : quiet w w1).
  { subst w1. destruct (pcRef (peer w)) as [pc|]; [|apply quiet_refl].
    eapply quiet_trans; [apply quiet_log_effects|apply quiet_set_pcRef]. }
  destruct (localStreamRef (media w1)); [|done].
  pose proof (quiet_initPeerConnection w1) as Hinit.
  destruct (initPeerConnection w1) as [[[]|err] w2]; simpl in *.
  - destruct (isCreator && createOfferFn); simpl.
    + eapply quiet_trans; [exact Hw1|].
      eapply quiet_trans; [exact Hinit|apply quiet_createOffer].
    + by eapply quiet_trans.
  - by eapply quiet_trans.
Qed.

Lemma disciplined_quiet (w w' : World) : quiet w w' → disciplined w → disciplined w'.
Proof.
  intros (Ht & Hn & Hc & Hr & Ha) [Hf Hnd Hm Ho Hb]. split.
  - unfold fresh_ids. rewrite Ht, Hn. apply Hf.
  - by rewrite Ht.
  - unfold owns. rewrite Ht, Hc. apply Hm.
  - unfold owns. rewrite Ht, Hr. apply Ho.
  - by rewrite Ha.
Qed.

(** What a channel operation has to keep for the discipline to hold. *)
Lemma disciplined_on_channel (f : Channel → Env → Channel * Env) (w : World) :
  disciplined w →
  (∀ c e, fresh_ids e → fresh_ids (f c e).2) →
  (∀ c e, fresh_ids e → NoDup (timer_id <$> timers e) →
          NoDup (timer_id <$> timers (f c e).2)) →
  (∀ c e, owns is_monitor (reconnectIntervalRef c) e →
          owns is_monitor (reconnectIntervalRef (f c e).1) (f c e).2) →
  (∀ c e ref, owns is_onReconnect ref e → owns is_onReconnect ref (f c e).2) →
  disciplined (on_channel f w).
Proof.
  intros [Hf Hnd Hm Ho Hb] Hfresh Hnodup Hmon Hrec. unfold on_channel.
  specialize (Hfresh (channel w) (env w) Hf).
  specialize (Hnodup (channel w) (env w) Hf Hnd).
  specialize (Hmon (channel w) (env w) Hm).
  specialize (Hrec (channel w) (env w) _ Ho).
  destruct (f (channel w) (env w)) as [c e]. by split.
Qed.

Lemma stop_keeps c e :
  (fresh_ids e → fresh_ids (stopMonitoringReconnection c e).2) ∧
  (NoDup (timer_id <$> timers e) →
   NoDup (timer_id <$> timers (stopMonitoringReconnection c e).2)) ∧
  (owns is_monitor (reconnectIntervalRef c) e →
   ∀ ref, owns is_monitor ref (stopMonitoringReconnection c e).2) ∧
  (∀ ref, owns is_onReconnect ref e →
          owns is_onReconnect ref (stopMonitoringReconnection c e).2).
Proof.
  unfold stopMonitoringReconnection. simpl. split_and!.
  - apply fresh_clear_ref.
  - apply NoDup_clear_ref.
  - intros Ho ref. by apply owns_cleared.
  - intros ref. apply owns_clear_ref.
Qed.

Lemma start_keeps c e :
  (fresh_ids e → fresh_ids (startMonitoringReconnection c e).2) ∧
  (fresh_ids e → NoDup (timer_id <$> timers e) →
   NoDup (timer_id <$> timers (startMonitoringReconnection c e).2)) ∧
  (owns is_monitor (reconnectIntervalRef c) e →
   owns is_monitor (reconnectIntervalRef (startMonitoringReconnection c e).1)
        (startMonitoringReconnection c e).2) ∧
  (∀ ref, owns is_onReconnect ref e →
          owns is_onReconnect ref (startMonitoringReconnection c e).2).
Proof.
  unfold startMonitoringReconnection, stopMonitoringReconnection. simpl. split_and!.
  - intros Hf. by apply fresh_setTimeout, fresh_clear_ref.
  - intros Hf Hnd. apply NoDup_setTimeout; [by apply fresh_clear_ref|].
    by apply NoDup_clear_ref.
  - intros Ho. by apply owns_setTimeout_own.
  - intros ref Ho. apply owns_setTimeout_other; [done|]. by apply owns_clear_ref.
Qed.

Lemma tick_keeps c e :
  (fresh_ids e → fresh_ids (monitor_tick c e).2) ∧
  (NoDup (timer_id <$> timers e) →
   NoDup (timer_id <$> timers (monitor_tick c e).2)) ∧
  (owns is_monitor (reconnectIntervalRef c) e →
   owns is_monitor (reconnectIntervalRef (monitor_tick c e).1) (monitor_tick c e).2) ∧
  (∀ ref, owns is_onReconnect ref e → owns is_onReconnect ref (monitor_tick c e).2).
Proof.
  destruct (stop_keeps c e) as (Hf & Hnd & Hm & Ho).
  unfold monitor_tick. destruct (socketRef c) as [socket|].
  - destruct (negb (connected socket) && _); [done|].
    destruct (connected socket); [split_and!; try done; intros; by apply Hm|].
    destruct (bool_decide _); [|done].
    split_and!; try done. intros. by apply Hm.
  - split_and!; try done. intros. by apply Hm.
Qed.

Lemma disciplined_attemptReconnection given (w : World) :
  disciplined w →
  let '(_, p, e) := attemptReconnection given (peer w) (env w) in
  disciplined (set_env e (set_peer p w)).
Proof.
  intros [Hf Hnd Hm Ho Hb]. unfold attemptReconnection.
  case_decide as Hmax; [by split|]. split; simpl.
  - by apply fresh_setTimeout, fresh_clear_ref.
  - apply NoDup_setTimeout; [by apply fresh_clear_ref|by apply NoDup_clear_ref].
  - apply owns_setTimeout_other; [done|]. by apply owns_clear_ref.
  - by apply owns_setTimeout_own.
  - lia.
Qed.

Lemma disciplined_state_change state (w : World) :
  disciplined w → disciplined (handlePeerConnectionStateChange state w).
Proof.
  intros Hd. unfold handlePeerConnectionStateChange.
  repeat case_decide; try (destruct Hd; by split).
  simpl. destruct (isConnected (channel w)); [|destruct Hd; by split].
  pose proof (disciplined_attemptReconnection true
                (set_room (set_status "disconnected" (room w)) w)) as Ha.
  simpl in Ha.
  destruct (attemptReconnection true (peer w) (env w)) as [[reconnected p] e].
  assert (Hd1 : disciplined (set_room (set_status "disconnected" (room w)) w))
    by (destruct Hd; by split).
  specialize (Ha Hd1). destruct Ha. by split.
Qed.

Lemma disciplined_handle_all (evs : list Event) (w : World) :
  disciplined w → disciplined (handle_all evs w).
Proof.
  intros Hd. revert w Hd. unfold handle_all.
  induction evs as [|ev evs IH]; intros w Hd; simpl; [done|].
  apply IH. destruct ev; simpl.
  - apply disciplined_on_channel; [done|..]; intros c e; unfold on_connect; simpl.
    + intros Hf. by do 2 apply fresh_clear_ref.
    + intros _ Hnd. by do 2 apply NoDup_clear_ref.
    + intros Ho. apply owns_cleared. by apply owns_clear_ref.
    + intros ref Ho. by do 2 apply owns_clear_ref.
  - apply disciplined_on_channel; [done|..]; intros c e; unfold on_disconnect;
      case_decide; simpl; try done; apply start_keeps.
  - destruct Hd. by split.
  - apply disciplined_on_channel; [done|..]; intros c e; unfold on_reconnect.
    + pose proof (stop_keeps (set_progress 0 (socketReconnecting c)
                                (socketRetryCount c) c) e) as (Hs & _).
      destruct (stopMonitoringReconnection _ e). apply Hs.
    + pose proof (stop_keeps (set_progress 0 (socketReconnecting c)
                                (socketRetryCount c) c) e) as (_ & Hs & _).
      destruct (stopMonitoringReconnection _ e). intros _. apply Hs.
    + pose proof (stop_keeps (set_progress 0 (socketReconnecting c)
                                (socketRetryCount c) c) e) as (_ & _ & Hs & _).
      destruct (stopMonitoringReconnection _ e). intros Ho. by apply Hs.
    + pose proof (stop_keeps (set_progress 0 (socketReconnecting c)
                                (socketRetryCount c) c) e) as (_ & _ & _ & Hs).
      destruct (stopMonitoringReconnection _ e). apply Hs.
  - apply disciplined_on_channel; [done|..]; intros c e.
    + apply tick_keeps.
    + intros _. apply tick_keeps.
    + apply tick_keeps.
    + apply tick_keeps.
  - destruct Hd as [Hf Hnd Hm Ho Hb]. split; simpl; try done.
    + intros t [_ Ht]%elem_of_clearTimeout. by apply Hf.
    + by apply NoDup_ids_filter.
    + by apply owns_clearTimeout.
    + by apply owns_clearTimeout.
  - unfold onconnectionstatechange.
    set (w1 := set_peer _ w).
    assert (Hd1 : disciplined w1) by (destruct Hd; by split).
    pose proof (disciplined_state_change state w1 Hd1) as Hd2.
    case_decide; [|done]. destruct Hd2. split; simpl; try done. lia.
  - eapply disciplined_quiet; [apply quiet_reconnect|done].
  - destruct Hd as [Hf Hnd Hm Ho Hb].
    unfold endCall, stopStream, close, disconnect.
    assert (Hlog : ∀ new e, timers (log new e) = timers e) by done.
    split; simpl.
    + destruct (localStreamRef (media w)), (pcRef (peer w)) as [pc|],
        (socketRef (channel w)); try destruct (close_ pc);
        repeat (apply fresh_clear_ref || apply Hf
                || (unfold fresh_ids, log; simpl)).
    + destruct (localStreamRef (media w)), (pcRef (peer w)) as [pc|],
        (socketRef (channel w)); try destruct (close_ pc); simpl;
        repeat (apply NoDup_clear_ref); try done.
    + destruct (localStreamRef (media w)), (pcRef (peer w)) as [pc|],
        (socketRef (channel w)); try destruct (close_ pc); simpl;
        try apply owns_log; apply owns_cleared; apply owns_clear_ref;
        try apply owns_log; apply owns_clear_ref; try apply owns_log; done.
    + destruct (localStreamRef (media w)), (pcRef (peer w)) as [pc|],
        (socketRef (channel w)); try destruct (close_ pc); simpl;
        try apply owns_log; do 2 apply owns_clear_ref;
        try apply owns_log; apply owns_cleared; try apply owns_log; done.
    + lia.
Qed.

(** X12.  The timer discipline is kept by every event, in any order:
    socket connects, disconnects and reconnection attempts, ticks of the
    monitor, timeouts that fire, peer connection state changes, the
    reconnection callback, and [endCall].  So at any time at most one
    monitor interval and at most one reconnection timeout are pending,
    and the peer retry counter is within [MAX_RECONNECT_ATTEMPTS]. *)
Theorem timers_stay_single (evs : list Event) (w : World) :
  disciplined w →
  disciplined (handle_all evs w) ∧
  (length (pending is_monitor (handle_all evs w)) ≤ 1)%nat ∧
  (length (pending is_onReconnect (handle_all evs w)) ≤ 1)%nat ∧
  (peerReconnectAttemptsRef (peer (handle_all evs w)) ≤ MAX_RECONNECT_ATTEMPTS)%nat.
Proof.
  intros Hd.
  pose proof (disciplined_handle_all evs w Hd) as Hall.
  split; [done|]. destruct Hall as [Hf Hnd Hm Ho Hb]. split_and!; [| |done].
  - by eapply owns_at_most_one.
  - by eapply owns_at_most_one.
Qed.

Lemma filter_none {A} (P : A → Prop) `{∀ x, Decision (P x)} (l : list A) :
  (∀ x, x ∈ l → ¬ P x) → filter P l = [].
Proof.
  induction l as [|x l IH]; intros Hl; [done|].
  rewrite filter_cons. destruct (decide (P x)) as [Hx|_].
  - destruct (Hl x (list_elem_of_here _ _) Hx).
  - apply IH. intros y Hy. apply Hl. by apply list_elem_of_further.
Qed.

(** X13.  When the timer discipline holds, [endCall] leaves neither a
    monitor interval nor a reconnection timeout pending, so neither
    callback can run after the call has ended. *)
Theorem endCall_cancels_timers (w : World) :
  disciplined w →
  pending is_monitor (endCall w) = [] ∧ pending is_onReconnect (endCall w) = [].
Proof.
  intros [Hf Hnd Hm Ho Hb].
  assert (Htimers : timers (env (endCall w)) =
                    timers (clear_ref (reconnectIntervalRef (channel w))
                           (clear_ref (connectionTimeoutRef (channel w))
                           (clear_ref (reconnectTimeoutRef (peer w)) (env w))))).
  { unfold endCall, stopStream, close, disconnect. simpl.
    destruct (localStreamRef (media w)), (pcRef (peer w)) as [pc|],
      (socketRef (channel w)); try destruct (close_ pc);
      destruct (reconnectTimeoutRef (peer w)),
        (connectionTimeoutRef (channel w)),
        (reconnectIntervalRef (channel w)); reflexivity. }
  unfold pending. rewrite Htimers. split; apply filter_none; intros t Ht Hk.
  - apply elem_of_clear_ref in Ht as [Hne Ht]. apply Hne.
    apply elem_of_clear_ref in Ht as [_ Ht].
    apply elem_of_clear_ref in Ht as [_ Ht]. by apply Hm.
  - apply elem_of_clear_ref in Ht as [_ Ht].
    apply elem_of_clear_ref in Ht as [_ Ht].
    apply elem_of_clear_ref in Ht as [Hne Ht]. apply Hne. by apply Ho.
Qed.

End Discipline.

Lemma disciplined_waiting B b : @disciplined B (waiting B b).
Proof.
  split; simpl.
  - intros t Ht. by apply elem_of_nil in Ht.
  - apply NoDup_nil_2.
  - intros t Ht. by apply elem_of_nil in Ht.
  - intros t Ht. by apply elem_of_nil in Ht.
  - unfold MAX_RECONNECT_ATTEMPTS. lia.
Qed.

(** The socket drops twice and the peer connection fails twice: one
    monitor interval and one reconnection timeout are pending. *)
Lemma timers_stay_single_witness :
  disciplined (waiting accepting true) ∧
  length (pending is_monitor
            (handle_all [socket_disconnected "transport close";
                         peer_state_changed "failed";
                         socket_disconnected "ping timeout";
                         peer_state_changed "failed"]
                        (waiting accepting true))) = 1%nat.
Proof.
  split; [apply disciplined_waiting|].
  destruct (timers_stay_single
              [socket_disconnected "transport close"; peer_state_changed "failed";
               socket_disconnected "ping timeout"; peer_state_changed "failed"]
              (waiting accepting true) (disciplined_waiting accepting true))
    as (_ & Hle & _).
  apply Nat.le_antisymm; [exact Hle|]. vm_compute. lia.
Defined.

Lemma endCall_cancels_timers_witness :
  disciplined (handle_all [socket_disconnected "transport close"]
                 (waiting accepting true)) ∧
  pending is_monitor
    (endCall (handle_all [socket_disconnected "transport close"]
                (waiting accepting true))) = [].
Proof.
  assert (Hd : disciplined (handle_all [socket_disconnected "transport close"]
                              (waiting accepting true))).
  { apply disciplined_handle_all, disciplined_waiting. }
  split; [exact Hd|]. apply (endCall_cancels_timers _ Hd).
Defined.

(** *** The reconnection monitor *)

(** X14.  With the socket down and the counter at zero, the monitor
    counts one attempt per tick up to [MAX_RECONNECT_ATTEMPTS], showing
    [reconnecting] with the attempt number; the tick after that gives
    up: it clears the interval and the [reconnecting] flag and leaves
    the counter at the maximum. *)
Theorem monitor_gives_up (c : Channel) (e : Env) socket :
  socketRef c = Some socket → connected socket = false →
  socketReconnectAttemptsRef c = 0%nat →
  (∀ n, (1 ≤ n ≤ MAX_RECONNECT_ATTEMPTS)%nat →
        ticks n c e = (set_progress n true n c, e)) ∧
  ticks (S MAX_RECONNECT_ATTEMPTS) c e =
    (set_progress MAX_RECONNECT_ATTEMPTS false MAX_RECONNECT_ATTEMPTS
                  (set_interval_ref None c),
     clear_ref (reconnectIntervalRef c) e).
Proof.
  intros Hsocket Hdown Hzero.
  assert (Hfirst : ticks 1 c e = (set_progress 1 true 1 c, e)).
  { simpl. unfold monitor_tick. rewrite Hsocket, Hdown, Hzero. reflexivity. }
  assert (Hn : ∀ n, (1 ≤ n ≤ MAX_RECONNECT_ATTEMPTS)%nat →
                    ticks n c e = (set_progress n true n c, e)).
  { intros n [Hlo Hhi]. induction n as [|n IH]; [lia|].
    destruct n as [|n]; [exact Hfirst|].
    change (ticks (S (S n)) c e)
      with (let '(c1, e1) := ticks (S n) c e in monitor_tick c1 e1).
    rewrite IH by lia. unfold monitor_tick. simpl. rewrite Hsocket, Hdown. simpl.
    rewrite bool_decide_eq_true_2 by lia. reflexivity. }
  split; [exact Hn|].
  change (ticks (S MAX_RECONNECT_ATTEMPTS) c e)
    with (let '(c1, e1) := ticks MAX_RECONNECT_ATTEMPTS c e in monitor_tick c1 e1).
  rewrite Hn by (unfold MAX_RECONNECT_ATTEMPTS; lia).
  unfold monitor_tick. simpl. rewrite Hsocket, Hdown. reflexivity.
Qed.

Lemma monitor_gives_up_witness :
  socketRef dropped = Some {| connected := false |} ∧
  reconnectIntervalRef
    (ticks 6 (startMonitoringReconnection dropped no_timers).1
             (startMonitoringReconnection dropped no_timers).2).1 = None ∧
  timers (ticks 6 (startMonitoringReconnection dropped no_timers).1
                  (startMonitoringReconnection dropped no_timers).2).2 = [].
Proof.
  split; [reflexivity|].
  destruct (monitor_gives_up (startMonitoringReconnection dropped no_timers).1
              (startMonitoringReconnection dropped no_timers).2
              {| connected := false |} eq_refl eq_refl eq_refl) as [_ Hlast].
  change (S MAX_RECONNECT_ATTEMPTS) with 6%nat in Hlast.
  rewrite Hlast. split; reflexivity.
Defined.

(** X15.  However many times the monitor ticks, it never takes the
    channel's attempt counter past [MAX_RECONNECT_ATTEMPTS], and it
    never replaces the socket. *)
Theorem monitor_counter_bounded (n : nat) (c : Channel) (e : Env) :
  (socketReconnectAttemptsRef c ≤ MAX_RECONNECT_ATTEMPTS)%nat →
  (socketReconnectAttemptsRef (ticks n c e).1 ≤ MAX_RECONNECT_ATTEMPTS)%nat ∧
  socketRef (ticks n c e).1 = socketRef c.
Proof.
  intros Hc. induction n as [|n [IH Hs]]; simpl; [done|].
  destruct (ticks n c e) as [c1 e1]. simpl in *.
  unfold monitor_tick. destruct (socketRef c1) as [socket|] eqn:Hsock; simpl.
  - destruct (connected socket); simpl.
    + split; [lia|congruence].
    + case_bool_decide; simpl; [split; [lia|congruence]|].
      case_bool_decide; simpl; split; (lia || congruence).
  - split; [lia|congruence].
Qed.

Lemma monitor_counter_bounded_witness :
  (socketReconnectAttemptsRef dropped ≤ MAX_RECONNECT_ATTEMPTS)%nat ∧
  (socketReconnectAttemptsRef (ticks 9 dropped no_timers).1 ≤ MAX_RECONNECT_ATTEMPTS)%nat.
Proof.
  assert (Hc : (socketReconnectAttemptsRef dropped ≤ MAX_RECONNECT_ATTEMPTS)%nat)
    by (vm_compute; lia).
  split; [exact Hc|]. exact (proj1 (monitor_counter_bounded 9 dropped no_timers Hc)).
Defined.

(** *** joinRoom *)

Lemma reports_cons_emit event roomId l :
  reports (do_emit event roomId :: l) = reports l.
Proof. done. Qed.

Lemma create_requests_cons_join roomId l :
  create_requests (do_emit "join-room" roomId :: l) = create_requests l.
Proof. done. Qed.

Lemma create_requests_cons_create roomId l :
  create_requests (do_emit "create-room" roomId :: l) = S (create_requests l).
Proof. done. Qed.

Lemma join_requests_cons_create roomId l :
  join_requests (do_emit "create-room" roomId :: l) = join_requests l.
Proof. done. Qed.

(** A joiner's run reports at most once, exactly once when every
    acknowledgement arrives, and never asks to create the room. *)
Lemma joiner_reports (c : Course) (roomId : string) (n : nat) :
  ∀ attempt maxAttempts,
    (maxAttempts - attempt)%nat = n →
    (reports (rejoinRoom c false roomId attempt maxAttempts) ≤ 1)%nat ∧
    ((∀ k, is_Some (join_reply c k)) →
     reports (rejoinRoom c false roomId attempt maxAttempts) = 1%nat) ∧
    create_requests (rejoinRoom c false roomId attempt maxAttempts) = 0%nat.
Proof.
  induction n as [|n IH]; intros attempt maxAttempts Hn;
    rewrite rejoinRoom_equation_1;
    (destruct (connected_at c attempt); simpl; [|done]);
    rewrite reports_cons_emit, create_requests_cons_join;
    (destruct (join_reply c attempt) as [res|] eqn:Hreply; simpl;
     [|split_and!; [unfold reports; simpl; lia| |done];
       intros Hall; destruct (Hall attempt) as [? ?]; congruence]);
    (destruct (ok res); simpl; [done|]);
    (destruct (lt_dec attempt maxAttempts) as [Hlt|Hge]; simpl; [|done]);
    try lia;
    (case_bool_decide; simpl; [|done]).
  destruct (IH (S attempt) maxAttempts) as (Hle & Hone & Hcreate); [lia|].
  change (reports (?a :: do_setTimeout ?ms :: ?l)) with (reports l).
  change (create_requests (?a :: do_setTimeout ?ms :: ?l)) with (create_requests l).
  done.
Qed.

Ltac count_actions :=
  split_and!; intros;
  first [ reflexivity | discriminate | unfold reports, create_requests, join_requests; simpl; lia ].

(** X16.  A creator whose [create-room] is answered ROOM_ALREADY_EXISTS
    and whose socket is gone from [socketRef] when the fallback timer
    fires gets no report at all: the timer callback ends in an uncaught
    TypeError.  Otherwise: whoever calls [joinRoom], creator or joiner,
    gets at most one report, [onSuccess] or [onError], and exactly one
    when every acknowledgement arrives and, for a creator, the socket is
    still in [socketRef] whenever the fallback timer fires.  A creator
    sends at most one [create-room] and at most one [join-room] (the
    fallback); a joiner never sends [create-room]. *)
Theorem joinRoom_reports_once (c : Course) (isCreator : bool) (roomId : string) :
  (∀ res,
     isCreator = true →
     connected_at c 0 = true → connected_at c 1 = true →
     create_reply c 1 = Some res → ok res = false →
     reason res = Some "ROOM_ALREADY_EXISTS" →
     socket_at_fallback c 1 = false →
     joinRoom c isCreator roomId =
       [do_setTimeout 100; do_emit "create-room" roomId; do_setTimeout 1000;
        uncaught_TypeError] ∧
     reports (joinRoom c isCreator roomId) = 0%nat) ∧
  (reports (joinRoom c isCreator roomId) ≤ 1)%nat ∧
  ((∀ k, (isCreator = true →
          is_Some (create_reply c k) ∧ socket_at_fallback c k = true) ∧
         is_Some (join_reply c k)) →
   reports (joinRoom c isCreator roomId) = 1%nat) ∧
  (create_requests (joinRoom c isCreator roomId) ≤ 1)%nat ∧
  (isCreator = true → (join_requests (joinRoom c isCreator roomId) ≤ 1)%nat) ∧
  (isCreator = false → create_requests (joinRoom c isCreator roomId) = 0%nat).
Proof.
  split.
  { intros res -> H0 H1 Hcreate Hok Hreason Hgone. unfold joinRoom.
    rewrite H0. simpl.
    rewrite rejoinRoom_equation_1, H1, Hcreate, Hok, Hreason, Hgone. simpl. done. }
  unfold joinRoom. destruct (connected_at c 0); simpl; [|by count_actions].
  change (reports (do_setTimeout 100 :: ?l)) with (reports l).
  change (create_requests (do_setTimeout 100 :: ?l)) with (create_requests l).
  change (join_requests (do_setTimeout 100 :: ?l)) with (join_requests l).
  destruct isCreator.
  - rewrite rejoinRoom_equation_1. destruct (connected_at c 1); simpl;
      [|by count_actions].
    rewrite reports_cons_emit, create_requests_cons_create, join_requests_cons_create.
    destruct (create_reply c 1) as [res|] eqn:Hcreate; simpl.
    2:{ split_and!; try done; try (unfold reports, join_requests; simpl; lia).
        intros Hall. destruct (Hall 1%nat) as [Hc _].
        destruct (Hc eq_refl) as [[? ?] _]. congruence. }
    destruct (ok res); simpl; [by count_actions|].
    match goal with |- context [if ?b then _ else _] => destruct b end; simpl;
      [|by count_actions].
    destruct (socket_at_fallback c 1) eqn:Hsocket; simpl.
    2:{ split_and!; try done; try (unfold reports, join_requests; simpl; lia).
        intros Hall. destruct (Hall 1%nat) as [Hc _].
        destruct (Hc eq_refl) as [_ ?]. congruence. }
    destruct (join_reply c 1) as [joinRes|] eqn:Hjoin; simpl.
    2:{ split_and!; try done; try (unfold reports, join_requests; simpl; lia).
        intros Hall. destruct (Hall 1%nat) as [_ [? ?]]. congruence. }
    destruct (ok joinRes); simpl; by count_actions.
  - destruct (joiner_reports c roomId 4 1 5 eq_refl) as (Hle & Hone & Hcreate).
    split_and!; try done; try lia.
    intros Hall. apply Hone. intros k. apply Hall.
Qed.

Lemma joinRoom_reports_once_witness :
  reports (joinRoom never_created false "r2") = 1%nat ∧
  create_requests (joinRoom never_created false "r2") = 0%nat ∧
  reports (joinRoom ended_meanwhile true "r2") = 0%nat.
Proof.
  destruct (joinRoom_reports_once never_created false "r2")
    as (_ & _ & Hone & _ & _ & Hnone).
  destruct (joinRoom_reports_once ended_meanwhile true "r2") as (Hgone & _).
  split_and!.
  - apply Hone. intros k. split; [discriminate|by eexists].
  - by apply Hnone.
  - by apply (Hgone {| ok := false; reason := Some "ROOM_ALREADY_EXISTS" |}).
Defined.

(** *** Negotiation *)

Section Negotiation.

Context `{RTCPeerConnection}.

Lemma effects_call {A} (method : PC → PC * completion A) (w : World) :
  effects (env (call method w).2) = effects (env w) ∧
  online (call method w).2 = online w ∧
  roomId (call method w).2 = roomId w ∧
  ((call method w).1 = throw "TypeError" ∨ is_Some (pcRef (peer (call method w).2))).
Proof.
  unfold call. destruct (pcRef (peer w)) as [pc|] eqn:Hpc; [|by (split_and!; try left)].
  destruct (method pc). simpl. split_and!; try done. right. by eexists.
Qed.

Lemma effects_initPeerConnection (w : World) :
  effects (env (initPeerConnection w).2) = effects (env w) ∧
  online (initPeerConnection w).2 = online w ∧
  roomId (initPeerConnection w).2 = roomId w.
Proof.
  unfold initPeerConnection. destruct (pcRef (peer w)); [done|].
  destruct new_RTCPeerConnection as [pc|]; [|done].
  destruct (localStreamRef (media w)) as [stream|]; [|done].
  by destruct (addTracks pc stream).
Qed.

Lemma effects_sendSignal data (w : World) :
  effects (env (sendSignal data w)) =
  effects (env w) ++
  if online w then [socket_emit_signal (roomId w) (type data) (payload data)] else [].
Proof.
  unfold sendSignal, online. destruct (socketRef (channel w)) as [socket|];
    [destruct (connected socket)|]; simpl; by rewrite ?app_nil_r.
Qed.

(** X17.  [handleOffer] either returns, and then it has sent exactly one
    [answer] signal carrying the local description of the peer
    connection (none when the socket is not connected: the answer is
    dropped, and [handleOffer] still returns), or it throws, and then it
    has sent nothing and has logged the error once. *)
Theorem handleOffer_outcomes (offer : string) (w : World) :
  match handleOffer offer w with
  | (normal _, w') =>
      ∃ pc, pcRef (peer w') = Some pc ∧
            effects (env w') =
            effects (env w) ++
            if online w
            then [socket_emit_signal (roomId w) "answer" (localDescription pc)]
            else []
  | (throw _, w') =>
      effects (env w') =
      effects (env w) ++ [console_error "[usePeerConnection] handleOffer error"]
  end.
Proof.
  unfold handleOffer, try_catch, bind.
  pose proof (effects_initPeerConnection w) as (He0 & Ho0 & Hr0).
  destruct (initPeerConnection w) as [[[]|err0] w0]; simpl in *; [|by rewrite He0].
  pose proof (effects_call (λ pc, setRemoteDescription pc offer) w0)
    as (He1 & Ho1 & Hr1 & _).
  destruct (call (λ pc, setRemoteDescription pc offer) w0) as [[[]|err1] w1];
    simpl in *; [|by rewrite He1, He0].
  pose proof (effects_call createAnswer_ w1) as (He2 & Ho2 & Hr2 & _).
  destruct (call createAnswer_ w1) as [[answer|err2] w2];
    simpl in *; [|by rewrite He2, He1, He0].
  pose proof (effects_call (λ pc, setLocalDescription pc answer) w2)
    as (He3 & Ho3 & Hr3 & _).
  destruct (call (λ pc, setLocalDescription pc answer) w2) as [[[]|err3] w3];
    simpl in *; [|by rewrite He3, He2, He1, He0].
  unfold call. destruct (pcRef (peer w3)) as [pc|] eqn:Hpc; simpl.
  - exists pc. split.
    + unfold sendSignal. simpl. destruct (socketRef (channel w3)) as [socket|];
        [destruct (connected socket)|]; done.
    + rewrite effects_sendSignal. simpl.
      change (online (set_pcRef (Some pc) w3)) with (online w3).
      by rewrite Ho3, Ho2, Ho1, Ho0, He3, He2, He1, He0, Hr3, Hr2, Hr1, Hr0.
  - by rewrite He3, He2, He1, He0.
Qed.

(** What [createOffer] does once there is a peer connection. *)
Lemma createOffer_tail (w0 : World) :
  match
    bind (call createOffer_) (λ offer,
      bind (call (λ pc, setLocalDescription pc offer)) (λ _,
        bind (call (λ pc, (pc, normal (localDescription pc)))) (λ description,
          λ w, (normal tt, sendSignal {| type := "offer"; payload := description |} w))))
      w0
  with
  | (normal _, w') =>
      ∃ pc, pcRef (peer w') = Some pc ∧
            effects (env w') =
            effects (env w0) ++
            if online w0
            then [socket_emit_signal (roomId w0) "offer" (localDescription pc)]
            else []
  | (throw _, w') => effects (env w') = effects (env w0)
  end.
Proof.
  unfold bind.
  pose proof (effects_call createOffer_ w0) as (He1 & Ho1 & Hr1 & _).
  destruct (call createOffer_ w0) as [[offer|err1] w1]; simpl in *; [|done].
  pose proof (effects_call (λ pc, setLocalDescription pc offer) w1)
    as (He2 & Ho2 & Hr2 & _).
  destruct (call (λ pc, setLocalDescription pc offer) w1) as [[[]|err2] w2];
    simpl in *; [|by rewrite He2].
  unfold call. destruct (pcRef (peer w2)) as [pc|] eqn:Hpc; simpl.
  - exists pc. split.
    + unfold sendSignal. simpl. destruct (socketRef (channel w2)) as [socket|];
        [destruct (connected socket)|]; done.
    + rewrite effects_sendSignal. simpl.
      change (online (set_pcRef (Some pc) w2)) with (online w2).
      by rewrite Ho2, Ho1, He2, He1, Hr2, Hr1.
  - by rewrite He2, He1.
Qed.

(** X18.  [createOffer] likewise: when it returns it has sent exactly
    one [offer] signal with the local description (none while the
    socket is not connected), after a warning if it had to create the
    peer connection itself; when it throws it has sent nothing and has
    logged the error once. *)
Theorem createOffer_outcomes (w : World) :
  let warned :=
    match pcRef (peer w) with
    | Some _ => []
    | None => [console_warn "[usePeerConnection] Peer connection not initialized, initializing now..."]
    end in
  match createOffer w with
  | (normal _, w') =>
      ∃ pc, pcRef (peer w') = Some pc ∧
            effects (env w') =
            effects (env w) ++ warned ++
            if online w
            then [socket_emit_signal (roomId w) "offer" (localDescription pc)]
            else []
  | (throw _, w') =>
      effects (env w') =
      effects (env w) ++ warned ++ [console_error "[usePeerConnection] createOffer error"]
  end.
Proof.
  unfold createOffer, try_catch. unfold bind at 1.
  destruct (pcRef (peer w)) as [pc0|] eqn:Hpc0; simpl.
  - pose proof (createOffer_tail w) as Htail.
    destruct (bind (call createOffer_) _ w) as [[[]|err] w1]; simpl.
    + exact Htail.
    + by rewrite Htail.
  - pose proof (effects_initPeerConnection
                  (log_effects [console_warn "[usePeerConnection] Peer connection not initialized, initializing now..."] w))
      as (He0 & Ho0 & Hr0).
    destruct (initPeerConnection _) as [[[]|err0] w0]; simpl in *.
    + pose proof (createOffer_tail w0) as Htail.
      destruct (bind (call createOffer_) _ w0) as [[[]|err] w1]; simpl.
      * destruct Htail as (pc & Hpc & ->). exists pc. split; [done|].
        by rewrite He0, Ho0, Hr0, <- app_assoc.
      * by rewrite Htail, He0, <- app_assoc.
    + by rewrite He0, <- app_assoc.
Qed.

(** X19.  [reconnect] leaves the timers, the reconnection ref and the
    retry counter alone.  Without a local stream it returns with no
    peer connection at all.  It throws only when the new peer
    connection cannot be built; an offer that fails afterwards is not
    propagated. *)
Theorem reconnect_outcomes (isCreator createOfferFn : bool) (w : World) :
  quiet w (reconnect isCreator createOfferFn w).2 ∧
  (localStreamRef (media w) = None →
   (reconnect isCreator createOfferFn w).1 = normal tt ∧
   pcRef (peer (reconnect isCreator createOfferFn w).2) = None) ∧
  (∀ err, (reconnect isCreator createOfferFn w).1 = throw err →
     ∃ stream, localStreamRef (media w) = Some stream ∧
       (new_RTCPeerConnection = throw err ∨
        ∃ pc, new_RTCPeerConnection = normal pc ∧
              (addTracks pc stream).2 = throw err)).
Proof.
  split; [apply quiet_reconnect|]. unfold reconnect.
  set (w1 := match pcRef (peer w) with Some pc => _ | None => w end).
  assert (Hmedia : media w1 = media w)
    by (subst w1; by destruct (pcRef (peer w))).
  assert (Hpc : pcRef (peer w1) = None)
    by (subst w1; by destruct (pcRef (peer w)) eqn:?).
  rewrite Hmedia. split.
  - by intros ->.
  - intros err. destruct (localStreamRef (media w)) as [stream|] eqn:Hstream; [|done].
    unfold initPeerConnection. rewrite Hpc, Hmedia, Hstream.
    destruct new_RTCPeerConnection as [pc|err0].
    + destruct (addTracks pc stream) as [pc' [[]|err1]] eqn:Hadd; simpl.
      * by destruct (isCreator && createOfferFn).
      * intros [= ->]. exists stream. split; [done|]. right. exists pc.
        by rewrite Hadd.
    + intros [= ->]. exists stream. split; [done|]. by left.
Qed.

(** X20.  The orchestrator's signal listener creates the peer connection
    when there is none, and a constructor that throws makes it throw for
    every kind of signal, ICE candidates included.  With a peer
    connection in place an ICE candidate never makes it throw, and a
    signal of an unknown type is ignored. *)
Theorem room_handleSignal_outcomes (data : SignalData) (w : World) :
  (∀ err, pcRef (peer w) = None → new_RTCPeerConnection = throw err →
          room_handleSignal data w = (throw err, w)) ∧
  (is_Some (pcRef (peer w)) → type data = "ice-candidate" →
   (room_handleSignal data w).1 = normal tt) ∧
  (is_Some (pcRef (peer w)) →
   type data ≠ "offer" → type data ≠ "answer" → type data ≠ "ice-candidate" →
   room_handleSignal data w = (normal tt, w)).
Proof.
  unfold room_handleSignal, bind, initPeerConnection. split_and!.
  - intros err -> ->. done.
  - intros [pc Hpc] Htype. rewrite Hpc. unfold handleSignal. rewrite Htype. simpl.
    unfold handleIceCandidate, try_catch, call, effect. rewrite Hpc.
    by destruct (addIceCandidate pc (payload data)) as [pc' [[]|err]].
  - intros [pc Hpc] Ho Ha Hi. rewrite Hpc. unfold handleSignal.
    by repeat (case_decide; [done|]).
Qed.

End Negotiation.

Lemma handleOffer_outcomes_witness :
  effects (env (handleOffer "sdp" (waiting accepting true)).2) =
    [socket_emit_signal "r1" "answer" "local-sdp"] ∧
  effects (env (handleOffer "sdp" (waiting accepting false)).2) = [].
Proof.
  pose proof (handleOffer_outcomes "sdp" (waiting accepting true)) as Hon.
  pose proof (handleOffer_outcomes "sdp" (waiting accepting false)) as Hoff.
  split.
  - destruct (handleOffer "sdp" (waiting accepting true)) as [[[]|err] w'] eqn:Hrun;
      [|discriminate Hrun].
    simpl. destruct Hon as (pc & _ & ->). reflexivity.
  - destruct (handleOffer "sdp" (waiting accepting false)) as [[[]|err] w'] eqn:Hrun;
      [|discriminate Hrun].
    simpl. destruct Hoff as (pc & _ & ->). reflexivity.
Defined.

Lemma createOffer_outcomes_witness :
  effects (env (createOffer (in_call true 0)).2) =
    [socket_emit_signal "r1" "offer" "local-sdp"].
Proof.
  pose proof (createOffer_outcomes (in_call true 0)) as Hrun.
  destruct (createOffer (in_call true 0)) as [[[]|err] w'] eqn:Hoffer;
    [|discriminate Hoffer].
  simpl. destruct Hrun as (pc & _ & ->). reflexivity.
Defined.

Lemma reconnect_outcomes_witness :
  (reconnect true true (in_call true 3)).1 = normal tt ∧
  peerReconnectAttemptsRef (peer (reconnect true true (in_call true 3)).2) = 3%nat.
Proof.
  destruct (reconnect_outcomes true true (in_call true 3))
    as ((_ & _ & _ & _ & Hattempts) & _).
  split; [reflexivity|exact Hattempts].
Defined.

Lemma room_handleSignal_outcomes_witness :
  pcRef (peer (waiting unsupported true)) = None ∧
  room_handleSignal {| type := "ice-candidate"; payload := "candidate" |}
                    (waiting unsupported true) =
  (throw "ReferenceError", waiting unsupported true).
Proof.
  split; [reflexivity|].
  destruct (room_handleSignal_outcomes
              {| type := "ice-candidate"; payload := "candidate" |}
              (waiting unsupported true)) as (Hthrow & _).
  apply Hthrow; reflexivity.
Defined.

(** *** Media errors *)

Lemma append_nonempty (a b : string) : a ≠ "" → String.append a b ≠ "".
Proof. destruct a; [done|]. discriminate. Qed.

Lemma formatErrorMessage_nonempty (err : option JSError) (defaultMessage : string) :
  defaultMessage ≠ "" → formatErrorMessage err defaultMessage ≠ "".
Proof.
  intros Hd. unfold formatErrorMessage. destruct err as [e|]; [|done].
  repeat (case_decide; [discriminate|]).
  destruct (bool_decide _ && _); [discriminate|].
  case_decide; [done|]. by apply append_nonempty.
Qed.

(** X21.  The message [formatErrorMessage] produces is never empty when
    the default message is not.  For the eight error names it knows the
    message depends on the name alone; an error with none of these names
    and an empty message gets the default. *)
Theorem formatErrorMessage_shown (err : option JSError) (defaultMessage : string) :
  (defaultMessage ≠ "" → formatErrorMessage err defaultMessage ≠ "") ∧
  (∀ e e' d',
     err = Some e → name e' = name e →
     name e ∈ ["NotAllowedError"; "PermissionDeniedError"; "NotFoundError";
               "DevicesNotFoundError"; "NotReadableError"; "TrackStartError";
               "OverconstrainedError"; "ConstraintNotSatisfiedError"] →
     formatErrorMessage (Some e') d' = formatErrorMessage err defaultMessage) ∧
  (∀ e,
     err = Some e → message e = "" →
     name e ∉ ["NotAllowedError"; "PermissionDeniedError"; "NotFoundError";
               "DevicesNotFoundError"; "NotReadableError"; "TrackStartError";
               "OverconstrainedError"; "ConstraintNotSatisfiedError"] →
     formatErrorMessage err defaultMessage = defaultMessage).
Proof.
  split_and!.
  - apply formatErrorMessage_nonempty.
  - intros e e' d' -> Hname Hin. unfold formatErrorMessage. rewrite Hname.
    repeat (apply elem_of_cons in Hin as [Hin|Hin];
            [rewrite Hin; vm_compute; reflexivity|]).
    by apply elem_of_nil in Hin.
  - intros e -> Hmsg Hname. unfold formatErrorMessage. rewrite Hmsg.
    repeat (case_decide as Hn;
            [exfalso; apply Hname; destruct Hn as [-> | ->];
             repeat (first [apply list_elem_of_here | apply list_elem_of_further])
            |clear Hn]).
    destruct (bool_decide (name e = "TypeError")); simpl; try case_decide; done.
Qed.

Lemma formatErrorMessage_shown_witness :
  default_error_message ≠ "" ∧
  formatErrorMessage (Some {| name := "SecurityError"; message := "" |})
    default_error_message ≠ "".
Proof.
  assert (Hd : default_error_message ≠ "") by discriminate.
  split; [exact Hd|].
  exact (proj1 (formatErrorMessage_shown
                  (Some {| name := "SecurityError"; message := "" |})
                  default_error_message) Hd).
Defined.

(** X22.  [getUserMedia] asks a second time, with plain constraints,
    only when the first request is refused.  When a request is granted
    the stream is stored in [localStreamRef], shown in the local video
    element and the hook's error is cleared.  When both are refused the
    error of the second request is the one thrown, the stored stream
    stays what it was, and the hook's error is a non-empty message. *)
Theorem getUserMedia_outcomes (ideal plain : MediaOutcome) (m : Media) :
  (∀ stream plain',
     ideal = granted stream →
     getUserMedia ideal plain m = getUserMedia ideal plain' m) ∧
  match getUserMedia ideal plain m with
  | (granted stream, m') =>
      (ideal = granted stream ∨ (∃ err, ideal = refused err) ∧ plain = granted stream) ∧
      localStreamRef m' = Some stream ∧
      mediaError m' = None ∧
      (∀ video, localVideoRef m = Some video →
                localVideoRef m' = Some {| srcObject := Some stream |})
  | (refused err, m') =>
      (∃ first, ideal = refused first) ∧ plain = refused err ∧
      localStreamRef m' = localStreamRef m ∧
      ∃ msg, mediaError m' = Some msg ∧ msg ≠ ""
  end.
Proof.
  split.
  - by intros stream plain' ->.
  - unfold getUserMedia. destruct ideal as [stream|first]; lazy beta iota.
    + split_and!; try done; [by left|]. by intros video ->.
    + destruct plain as [stream|err]; lazy beta iota.
      * split_and!; try done; [right; eauto|]. by intros video ->.
      * split_and!; try done; [eauto|].
        exists (formatErrorMessage (Some err) default_error_message).
        split; [reflexivity|]. by apply formatErrorMessage_nonempty.
Qed.

Lemma getUserMedia_outcomes_witness :
  (getUserMedia (refused {| name := "OverconstrainedError"; message := "" |})
                (granted ["audio"; "video"])
                {| localStreamRef := None; localVideoRef := None;
                   muted := false; videoOff := false; mediaError := None |}).1
  = granted ["audio"; "video"].
Proof.
  pose proof (getUserMedia_outcomes
                (refused {| name := "OverconstrainedError"; message := "" |})
                (granted ["audio"; "video"])
                {| localStreamRef := None; localVideoRef := None;
                   muted := false; videoOff := false; mediaError := None |})
    as [_ Hrun].
  destruct (getUserMedia _ _ _) as [[stream|err] m'] eqn:Hcall; simpl.
  - destruct Hrun as ([Hideal|[_ Hplain]] & _); congruence.
  - destruct Hrun as (_ & Hplain & _). discriminate Hplain.
Defined.

End ClientMore.
